(** * VoteHub front end: poll utilities, winner colours and division keys

    A shallow embedding of the TypeScript sources

    - [app/models]: the interfaces [Answer] and [Poll];
    - [utils/pollUtils.ts]: [normalizeChoice], [calculateChoicesWithColors];
    - [components/PollsTable.tsx]: the per-table copy of the clustering scan,
      [getAnswerPct], [getWinnerInfo], [getWinnerColor] and the colours of
      the cells;
    - [components/ChartView.tsx]: the raw points of the line chart;
    - [app/page.tsx]: the blank-query guard, the division-key parsing, the
      end-date sort and the grouping of [handleSearch];

    together with a transition-system model of the party resolver's
    single-flight cache, which lives in the Python back end.

    Modelling conventions.

    - A JavaScript string is a list of code units.  The code units modelled
      are the 8-bit ones ([ascii], i.e. U+0000..U+00FF); on that range the
      class [\s], [String.prototype.trim] and [toLowerCase] are per-unit
      functions known exactly, and [.length] is the length of the list.
    - A JavaScript number is kept abstract ([JsNumber]); two instances are
      given, exact rationals and IEEE-754 binary64 (primitive floats).
    - [Map] keeps insertion order, so [choiceStats] is an association list
      in first-insertion order.  [colorMap] is a plain object that is only
      ever read by key: its own properties, as [response.json()] created
      them, are a [gmap], and a read ([getProperty]) falls back on the
      properties that every plain object inherits from [Object.prototype].
    - [Array.prototype.sort] is stable; with a comparator it is modelled by a
      stable insertion sort driven by the sign of the comparator. *)

From Stdlib Require Import List Ascii String ZArith QArith Bool Lia.
From Stdlib Require Import Permutation Sorted Floats.
From stdpp Require Import gmap strings list.

Local Open Scope list_scope.

(** ** JavaScript strings *)

Abbreviation jsstring := (list ascii).

(** String literals of the sources. *)
Definition lit (s : string) : jsstring := list_ascii_of_string s.

(** The regular-expression class [\s] and the white space removed by
    [trim] coincide in ECMAScript (WhiteSpace and LineTerminator); below
    U+0100 these are TAB, LF, VT, FF, CR, SPACE and NO-BREAK SPACE. *)
Definition isWhiteSpace (c : ascii) : bool :=
  match N_of_ascii c with
  | 9 | 10 | 11 | 12 | 13 | 32 | 160 => true
  | _ => false
  end%N.

Definition SPACE : ascii := " "%char.
Definition PERIOD : ascii := "."%char.
Definition COMMA : ascii := ","%char.
Definition UNDERSCORE : ascii := "_"%char.
Definition HYPHEN : ascii := "-"%char.

(** [s.replace(/c/g, '')] for a single literal character [c]. *)
Definition removeAll (c : ascii) (s : jsstring) : jsstring :=
  List.filter (fun x => negb (Ascii.eqb x c)) s.

(** [s.replace(/\s+/g, ' ')]: every maximal run of white space becomes one
    SPACE.  [inRun] tells that the previous code unit belonged to a run whose
    replacement has already been emitted. *)
Fixpoint replaceWsRuns (inRun : bool) (s : jsstring) : jsstring :=
  match s with
  | [] => []
  | c :: r =>
      if isWhiteSpace c
      then (if inRun then replaceWsRuns true r else SPACE :: replaceWsRuns true r)
      else c :: replaceWsRuns false r
  end.

Fixpoint trimStart (s : jsstring) : jsstring :=
  match s with
  | [] => []
  | c :: r => if isWhiteSpace c then trimStart r else s
  end.

Definition trimEnd (s : jsstring) : jsstring := rev (trimStart (rev s)).

(** [s.trim()] *)
Definition trim (s : jsstring) : jsstring := trimEnd (trimStart s).

(** [s.toLowerCase()] on 8-bit code units: A-Z, and the Latin-1 capitals
    U+00C0..U+00DE except the multiplication sign U+00D7, move up by 32. *)
Definition toLowerUnit (c : ascii) : ascii :=
  let n := N_of_ascii c in
  if ((65 <=? n) && (n <=? 90) || (192 <=? n) && (n <=? 222) && negb (n =? 215))%N
  then ascii_of_N (n + 32) else c.

Definition toLowerCase (s : jsstring) : jsstring := map toLowerUnit s.

(** [===] on strings. *)
Definition strEq (a b : jsstring) : bool := bool_decide (a = b).

(** ** Plain objects read by key *)

(** The property names that [Object.prototype] defines (ECMAScript, Annex B
    included).  An object literal and an object made by [JSON.parse] inherit
    them all. *)
Definition objectPrototypeNames : list jsstring :=
  [lit "constructor"; lit "__defineGetter__"; lit "__defineSetter__";
   lit "hasOwnProperty"; lit "__lookupGetter__"; lit "__lookupSetter__";
   lit "isPrototypeOf"; lit "propertyIsEnumerable"; lit "toString";
   lit "valueOf"; lit "__proto__"; lit "toLocaleString"].

Definition inheritedName (name : jsstring) : bool :=
  existsb (strEq name) objectPrototypeNames.

(** What [obj[name]] evaluates to on a [Record<string, string>]: a string,
    when [name] is an own property, or the value of the property of that
    name inherited from [Object.prototype] (a function; the prototype itself
    for [__proto__]). *)
Inductive JsValue :=
| VString (s : jsstring)
| VInherited (name : jsstring).

(** [obj[name]]: the own property first, then the prototype's; [None] is
    [undefined]. *)
Definition getProperty (obj : gmap jsstring jsstring) (name : jsstring) : option JsValue :=
  match obj !! name with
  | Some s => Some (VString s)
  | None => if inheritedName name then Some (VInherited name) else None
  end.

(** Truthiness: of the values above only the empty string is falsy. *)
Definition truthy (v : JsValue) : bool :=
  match v with
  | VString [] => false
  | _ => true
  end.

(** [v || fallback] for a string literal [fallback]. *)
Definition orElse (v : option JsValue) (fallback : jsstring) : JsValue :=
  match v with
  | Some x => if truthy x then x else VString fallback
  | None => VString fallback
  end.

(** ** utils/pollUtils.ts *)

(** [normalizeChoice]: remove periods, remove commas, normalise white space,
    trim. *)
Definition normalizeChoice (choice : jsstring) : jsstring :=
  trim (replaceWsRuns false (removeAll COMMA (removeAll PERIOD choice))).

(** Labels that differ only in periods, commas or runs of white space: the
    least equivalence that may insert or delete a period or a comma anywhere,
    replace one non-empty run of white space by another, and add or drop
    leading or trailing white space. *)
Definition allWhiteSpace (w : jsstring) : Prop := Forall (fun c => isWhiteSpace c = true) w.

Inductive punctWsEquiv : jsstring -> jsstring -> Prop :=
| pw_refl s : punctWsEquiv s s
| pw_sym s t : punctWsEquiv s t -> punctWsEquiv t s
| pw_trans s t u : punctWsEquiv s t -> punctWsEquiv t u -> punctWsEquiv s u
| pw_period u v : punctWsEquiv (u ++ PERIOD :: v) (u ++ v)
| pw_comma u v : punctWsEquiv (u ++ COMMA :: v) (u ++ v)
| pw_run u w1 w2 v :
    allWhiteSpace w1 -> allWhiteSpace w2 -> w1 <> [] -> w2 <> [] ->
    punctWsEquiv (u ++ w1 ++ v) (u ++ w2 ++ v)
| pw_leading w u : allWhiteSpace w -> punctWsEquiv (w ++ u) u
| pw_trailing u w : allWhiteSpace w -> punctWsEquiv (u ++ w) u.

(** ** JavaScript numbers *)

(** The operations the sources apply to numbers.  [npositive x] is the test
    [x > 0] that [Array.prototype.sort] applies to a comparator's result; it
    is false for zero, for negative numbers and for NaN. *)
Class JsNumber (num : Type) := {
  nzero : num;
  nadd : num -> num -> num;
  nsub : num -> num -> num;
  ndiv : num -> num -> num;
  nofNat : nat -> num;
  npositive : num -> bool
}.

(** Exact rationals: numbers without rounding, NaN or infinities. *)
#[export] Instance QNumber : JsNumber Q := {|
  nzero := 0%Q;
  nadd := Qplus;
  nsub := Qminus;
  ndiv := Qdiv;
  nofNat := fun n => inject_Z (Z.of_nat n);
  npositive := fun x => (0 <? Qnum x)%Z
|}.

(** IEEE-754 binary64, the number type of JavaScript itself. *)
#[export] Instance FloatNumber : JsNumber float := {|
  nzero := 0%float;
  nadd := PrimFloat.add;
  nsub := PrimFloat.sub;
  ndiv := PrimFloat.div;
  nofNat := fun n => PrimFloat.of_uint63 (Uint63.of_Z (Z.of_nat n));
  npositive := fun x => PrimFloat.ltb 0%float x
|}.

(** ** Array.prototype.sort with a comparator *)

(** [gt x y] stands for [comparefn(x, y) > 0], in which case [y] is placed
    before [x]; otherwise the two keep their relative order. *)
Fixpoint insertSorted {A : Type} (gt : A -> A -> bool) (x : A) (l : list A) : list A :=
  match l with
  | [] => [x]
  | y :: r => if gt x y then y :: insertSorted gt x r else x :: l
  end.

Definition jsSort {A : Type} (gt : A -> A -> bool) (l : list A) : list A :=
  fold_right (insertSorted gt) [] l.

(** ** models *)

Section Models.
Context {num : Type}.

(** [interface Answer]: a choice label and its percentage. *)
Record Answer := { choice : jsstring; pct : num }.

(** [interface Poll].  Of its fields these are kept: [id] (as [poll_id]),
    [poll_type], [end_date], [sample_size] ([number | null]) and [answers];
    [subject], [pollster], [start_date], [population], [created_at] and
    [url] are only displayed and play no part below.  The interface declares
    [answers] as [Answer[]]; the components nevertheless guard every access
    ([poll.answers?.forEach], [!poll.answers]), so the field is optional
    here, [None] being [undefined]. *)
Record Poll := {
  poll_id : jsstring;
  poll_type : jsstring;
  end_date : jsstring;
  sample_size : option num;
  answers : option (list Answer)
}.

(** The value type of the [choiceStats] map. *)
Record ChoiceStats := {
  total : num;
  count : nat;
  displayName : jsstring;
  originalNames : list jsstring
}.

(** The objects built by [.map(([normalized, stats]) => ...)]. *)
Record UniqueChoice := {
  uc_normalized : jsstring;
  uc_displayName : jsstring;
  uc_average : num
}.

(** [ChoiceData].  The interface declares [color] as a string; the value
    stored is what [colorMap[name] || '#7f7f7f'] evaluates to. *)
Record ChoiceData := {
  cd_displayName : jsstring;
  cd_average : num;
  cd_color : JsValue
}.

End Models.

Arguments Answer : clear implicits.
Arguments Poll : clear implicits.
Arguments ChoiceStats : clear implicits.
Arguments UniqueChoice : clear implicits.
Arguments ChoiceData : clear implicits.

(** ** utils/pollUtils.ts: the clustering scan *)

Section PollUtils.
Context {num : Type} {JN : JsNumber num}.

(** [Map.prototype.get] *)
Fixpoint mapGet {V : Type} (k : jsstring) (m : list (jsstring * V)) : option V :=
  match m with
  | [] => None
  | (k', v) :: r => if strEq k' k then Some v else mapGet k r
  end.

(** [Map.prototype.set]: an existing key keeps its position, a new key goes
    to the end. *)
Fixpoint mapSet {V : Type} (k : jsstring) (v : V) (m : list (jsstring * V)) : list (jsstring * V) :=
  match m with
  | [] => [(k, v)]
  | (k', v') :: r => if strEq k' k then (k', v) :: r else (k', v') :: mapSet k v r
  end.

(** The body of [poll.answers?.forEach((answer) => ...)]. *)
Definition scanAnswer (choiceStats : list (jsstring * ChoiceStats num)) (answer : Answer num)
  : list (jsstring * ChoiceStats num) :=
  let normalized := normalizeChoice (choice answer) in
  let stats :=
    match mapGet normalized choiceStats with
    | Some st => st
    | None => {| total := nzero; count := 0; displayName := normalized; originalNames := [] |}
    end in
  let total' := nadd (total stats) (pct answer) in
  let count' := count stats + 1 in
  let originalNames' := originalNames stats ++ [choice answer] in
  let displayName' :=
    if (length (choice answer) <? length (displayName stats))%nat
    then choice answer else displayName stats in
  mapSet normalized
    {| total := total'; count := count'; displayName := displayName';
       originalNames := originalNames' |} choiceStats.

(** [poll.answers?.forEach]: nothing happens when [answers] is undefined. *)
Definition answersOf (poll : Poll num) : list (Answer num) :=
  match answers poll with Some l => l | None => [] end.

Definition scanPoll (choiceStats : list (jsstring * ChoiceStats num)) (poll : Poll num) :=
  fold_left scanAnswer (answersOf poll) choiceStats.

(** The [choiceStats] map after [polls.forEach].  [PollsTable.tsx] repeats
    this scan verbatim for its own [choiceStats]. *)
Definition choiceStatsOf (polls : list (Poll num)) : list (jsstring * ChoiceStats num) :=
  fold_left scanPoll polls [].

(** [Array.from(choiceStats.entries()).map(...)] *)
Definition choiceAverages (polls : list (Poll num)) : list (UniqueChoice num) :=
  map (fun '(normalized, stats) =>
         {| uc_normalized := normalized;
            uc_displayName := displayName stats;
            uc_average := ndiv (total stats) (nofNat (count stats)) |})
      (choiceStatsOf polls).

(** The comparator [(a, b) => b.average - a.average], tested for [> 0]. *)
Definition byAverageDesc (a b : UniqueChoice num) : bool :=
  npositive (nsub (uc_average b) (uc_average a)).

Definition uniqueChoices (polls : list (Poll num)) : list (UniqueChoice num) :=
  jsSort byAverageDesc (choiceAverages polls).

(** [colorMap[name] || fallback]: the value read when it is truthy, that is
    a non-empty own entry or an inherited property. *)
Definition colorOr (colorMap : gmap jsstring jsstring) (name fallback : jsstring) : JsValue :=
  orElse (getProperty colorMap name) fallback.

Definition GREY : jsstring := lit "#7f7f7f".

Definition calculateChoicesWithColors (polls : list (Poll num))
    (colorMap : gmap jsstring jsstring) : list (ChoiceData num) :=
  map (fun item =>
         {| cd_displayName := uc_displayName item;
            cd_average := uc_average item;
            cd_color := colorOr colorMap (uc_displayName item) GREY |})
      (firstn 10 (uniqueChoices polls)).

(** *** components/PollsTable.tsx: getWinnerColor *)

Definition ORANGE : jsstring := lit "#e08728".
Definition GREEN : jsstring := lit "#288544".
Definition BLUE : jsstring := lit "#2853e0".
Definition RED : jsstring := lit "#e02f28".
Definition BLACK : jsstring := lit "#000000".

(** The second half of [getWinnerColor], from [// Fallback to old logic] to
    the final [return '#000000']. *)
Definition winnerRuleColor (poll : Poll num) (winnerChoice : jsstring) : jsstring :=
  let pollTypeNormalized := toLowerCase (poll_type poll) in
  let winnerNormalized := toLowerCase (normalizeChoice winnerChoice) in
  if strEq pollTypeNormalized (lit "approval") || strEq pollTypeNormalized (lit "favorability")
  then
    if strEq winnerNormalized (lit "disapprove") || strEq winnerNormalized (lit "unfavorable")
    then ORANGE
    else if strEq winnerNormalized (lit "approve") || strEq winnerNormalized (lit "favorable")
    then GREEN
    else BLACK
  else if strEq pollTypeNormalized (lit "generic-ballot")
  then
    if strEq winnerNormalized (lit "dem") then BLUE
    else if strEq winnerNormalized (lit "rep") then RED
    else BLACK
  else BLACK.

(** [getWinnerColor]: [if (colorMap[winnerChoice]) return colorMap[winnerChoice]],
    then the rules. *)
Definition getWinnerColor (colorMap : gmap jsstring jsstring) (poll : Poll num)
    (winnerChoice : jsstring) : JsValue :=
  match getProperty colorMap winnerChoice with
  | Some v => if truthy v then v else VString (winnerRuleColor poll winnerChoice)
  | None => VString (winnerRuleColor poll winnerChoice)
  end.

(** *** app/page.tsx: the end-date sort of handleSearch *)

(** [getTime s] stands for [new Date(s).getTime()], with [None] for NaN (an
    invalid date).  The comparator is
    [new Date(b.end_date).getTime() - new Date(a.end_date).getTime()]; a NaN
    result is not positive. *)
Definition byEndDateDesc (getTime : jsstring -> option Z) (a b : Poll num) : bool :=
  match getTime (end_date b), getTime (end_date a) with
  | Some tb, Some ta => (0 <? tb - ta)%Z
  | _, _ => false
  end.

Definition sortedPolls (getTime : jsstring -> option Z) (polls : list (Poll num)) : list (Poll num) :=
  jsSort (byEndDateDesc getTime) polls.

End PollUtils.

(** *** app/page.tsx: division keys *)

(** [s.split(sep)] for a one-character separator; the result is never
    empty. *)
Fixpoint split (sep : ascii) (s : jsstring) : list jsstring :=
  match s with
  | [] => [[]]
  | c :: r =>
      if Ascii.eqb c sep then [] :: split sep r
      else match split sep r with
           | seg :: segs => (c :: seg) :: segs
           | [] => [[c]]
           end
  end.

(** [parts.join(sep)] *)
Fixpoint join (sep : jsstring) (parts : list jsstring) : jsstring :=
  match parts with
  | [] => []
  | p :: ps => match ps with [] => p | _ :: _ => p ++ sep ++ join sep ps end
  end.

(** [const [subject, ...pollTypeParts] = divisionKey.split('_')] and
    [pollTypeParts.join('-')]; the result is the pair (subject, pollType). *)
Definition parseDivisionKey (divisionKey : jsstring) : jsstring * jsstring :=
  match split UNDERSCORE divisionKey with
  | subject :: pollTypeParts => (subject, join (lit "-") pollTypeParts)
  | [] => ([], [])
  end.

(** The part of a string before the first occurrence of [c] (all of it when
    [c] does not occur), and the part after it. *)
Fixpoint beforeFirst (c : ascii) (s : jsstring) : jsstring :=
  match s with
  | [] => []
  | x :: r => if Ascii.eqb x c then [] else x :: beforeFirst c r
  end.

Fixpoint afterFirst (c : ascii) (s : jsstring) : jsstring :=
  match s with
  | [] => []
  | x :: r => if Ascii.eqb x c then r else afterFirst c r
  end.

Definition replaceEach (c d : ascii) (s : jsstring) : jsstring :=
  map (fun x => if Ascii.eqb x c then d else x) s.

(** *** Dates *)

(** The time value of a calendar date written [YYYY-MM-DD], which
    [new Date(s)] reads as midnight UTC: milliseconds since 1970-01-01.
    Every other string is left undetermined here ([None]); the sort is
    stated for an arbitrary [getTime]. *)
Definition digitOf (c : ascii) : option Z :=
  let n := Z.of_N (N_of_ascii c) in
  if ((48 <=? n) && (n <=? 57))%Z then Some (n - 48)%Z else None.

Definition isLeapYear (y : Z) : bool :=
  ((y mod 4 =? 0) && (negb (y mod 100 =? 0) || (y mod 400 =? 0)))%Z.

Definition daysInMonth (y m : Z) : Z :=
  match m with
  | 1 | 3 | 5 | 7 | 8 | 10 | 12 => 31
  | 4 | 6 | 9 | 11 => 30
  | 2 => if isLeapYear y then 29 else 28
  | _ => 0
  end%Z.

Definition daysFromCivil (y m d : Z) : Z :=
  (let y' := if m <=? 2 then y - 1 else y in
   let era := y' / 400 in
   let yoe := y' - era * 400 in
   let mp := (m + 9) mod 12 in
   let doy := (153 * mp + 2) / 5 + d - 1 in
   let doe := yoe * 365 + yoe / 4 - yoe / 100 + doy in
   era * 146097 + doe - 719468)%Z.

Definition isoDateTime (s : jsstring) : option Z :=
  match s with
  | [y1; y2; y3; y4; h1; m1; m2; h2; d1; d2] =>
      match digitOf y1, digitOf y2, digitOf y3, digitOf y4,
            digitOf m1, digitOf m2, digitOf d1, digitOf d2 with
      | Some a, Some b, Some c, Some d, Some e, Some f, Some g, Some h =>
          let y := (1000 * a + 100 * b + 10 * c + d)%Z in
          let m := (10 * e + f)%Z in
          let dd := (10 * g + h)%Z in
          if Ascii.eqb h1 HYPHEN && Ascii.eqb h2 HYPHEN
             && (1 <=? m)%Z && (m <=? 12)%Z && (1 <=? dd)%Z && (dd <=? daysInMonth y m)%Z
          then Some (daysFromCivil y m dd * 86400000)%Z
          else None
      | _, _, _, _, _, _, _, _ => None
      end
  | _ => None
  end.

(** ** Vocabulary of the statements *)

(** The shortest string of [seed :: labels], the earliest winning ties. *)
Definition shortestFirst (seed : jsstring) (labels : list jsstring) : jsstring :=
  fold_left (fun best c => if (length c <? length best)%nat then c else best) labels seed.

(** Removal of periods, then of commas: the first two steps of
    [normalizeChoice]. *)
Definition stripPunct (s : jsstring) : jsstring := removeAll COMMA (removeAll PERIOD s).

Definition noPunct (s : jsstring) : Prop := Forall (fun c => c <> PERIOD /\ c <> COMMA) s.

(** The run flag of [replaceWsRuns] after reading [x]. *)
Definition runFlagAfter (b : bool) (x : jsstring) : bool :=
  fold_left (fun _ c => isWhiteSpace c) x b.

(** Case-insensitive match of two strings. *)
Definition matchesIgnoringCase (s pattern : jsstring) : Prop :=
  toLowerCase s = toLowerCase pattern.

(** No usable colour of its own for [name] in the colour map: no own entry,
    or the empty string. *)
Definition noColorFor (colorMap : gmap jsstring jsstring) (name : jsstring) : Prop :=
  colorMap !! name = None \/ colorMap !! name = Some [].

(** [colorMap[name]] is falsy: the own entry is the empty string, or there
    is no own entry and [Object.prototype] has no property of that name. *)
Definition noValueFor (colorMap : gmap jsstring jsstring) (name : jsstring) : Prop :=
  colorMap !! name = Some []
  \/ (colorMap !! name = None /\ inheritedName name = false).

(** One of the six words that the fallback rules of [getWinnerColor] look
    for, in any case. *)
Definition isRuleWord (key : jsstring) : Prop :=
  matchesIgnoringCase key (lit "approve") \/ matchesIgnoringCase key (lit "favorable")
  \/ matchesIgnoringCase key (lit "disapprove") \/ matchesIgnoringCase key (lit "unfavorable")
  \/ matchesIgnoringCase key (lit "dem") \/ matchesIgnoringCase key (lit "rep").


(** The end date of [p] is a valid date. *)
Definition validEndDate {num : Type} (getTime : jsstring -> option Z) (p : Poll num) : Prop :=
  getTime (end_date p) <> None.

(** Poll [a] ends no earlier than poll [b], both end dates being valid. *)
Definition endsNoEarlier {num : Type} (getTime : jsstring -> option Z) (a b : Poll num) : Prop :=
  match getTime (end_date a), getTime (end_date b) with
  | Some ta, Some tb => (tb <= ta)%Z
  | _, _ => False
  end.

Section Vocabulary.
Context {num : Type} {JN : JsNumber num}.

(** Every answer of every poll, in scan order. *)
Definition allAnswers (polls : list (Poll num)) : list (Answer num) :=
  flat_map answersOf polls.

(** The answers whose label has canonical key [key], in scan order. *)
Definition inCluster (key : jsstring) (a : Answer num) : bool :=
  strEq (normalizeChoice (choice a)) key.

Definition clusterOf (key : jsstring) (polls : list (Poll num)) : list (Answer num) :=
  List.filter (inCluster key) (allAnswers polls).

(** The scan over a flat list of answers. *)
Definition scanAll (l : list (Answer num)) : list (jsstring * ChoiceStats num) :=
  fold_left scanAnswer l [].

(** The running sum [((0 + p1) + p2) + ...]. *)
Definition sumOf (l : list num) : num := fold_left nadd l nzero.

(** What the scan has accumulated for a cluster [cl] of key [key]: nothing
    for an empty cluster. *)
Definition statsOfCluster (key : jsstring) (cl : list (Answer num)) : option (ChoiceStats num) :=
  match cl with
  | [] => None
  | _ :: _ =>
      Some {| total := sumOf (map pct cl); count := length cl;
              displayName := shortestFirst key (map choice cl);
              originalNames := map choice cl |}
  end.

(** [a < b] as the comparator of the sources sees it: [b - a > 0]. *)
Definition belowN (a b : num) : bool := npositive (nsub b a).

(** The comparator is consistent on the values [vals]: [belowN] is
    asymmetric, and its complement is transitive. *)
Definition consistentOn (vals : list num) : bool :=
  forallb (fun a => forallb (fun b =>
    implb (belowN a b) (negb (belowN b a))
    && forallb (fun c => implb (negb (belowN a b) && negb (belowN b c)) (negb (belowN a c))) vals)
    vals) vals.

End Vocabulary.

(** ** PartyResolver (back end) *)

(** Modelled from the spec: the fixed set of party affiliations. *)
Inductive Party :=
  Democrat | Republican | Independent | Libertarian | Green | Other | Unknown.

(** Modelled from the spec: what can happen to the resolver.  A caller enters
    [resolve(name)], or the outstanding external lookup for [name] returns a
    party (a failed or unparseable lookup returns [Unknown]). *)
Inductive ResolverEvent :=
| Call (caller : nat) (name : jsstring)
| Complete (name : jsstring) (party : Party).

(** Modelled from the spec: the process-wide cache, the callers awaiting the
    outstanding lookup of each name (the holder of the per-name lock first),
    the log of external lookups issued, and the parties handed back to
    callers. *)
Record ResolverState := {
  cache : gmap jsstring Party;
  inflight : gmap jsstring (list nat);
  lookups : list jsstring;
  answered : list (nat * jsstring * Party)
}.

Definition resolverStart : ResolverState :=
  {| cache := ∅; inflight := ∅; lookups := []; answered := [] |}.

(** Modelled from the spec: the resolver's source ([party_affiliation_service.py])
    is not among the sources at hand.  [resolve] checks the cache first; on a
    miss the caller either joins the lookup already outstanding for that name
    or, holding the per-name lock, issues the one external lookup; when the
    lookup returns, its result is cached and handed to every caller awaiting
    it.  Concurrency is the interleaving of these atomic steps in any order. *)
Definition resolverStep (s : ResolverState) (e : ResolverEvent) : ResolverState :=
  match e with
  | Call caller name =>
      match cache s !! name with
      | Some party =>
          {| cache := cache s; inflight := inflight s; lookups := lookups s;
             answered := (caller, name, party) :: answered s |}
      | None =>
          match inflight s !! name with
          | Some waiting =>
              {| cache := cache s; inflight := <[name := waiting ++ [caller]]> (inflight s);
                 lookups := lookups s; answered := answered s |}
          | None =>
              {| cache := cache s; inflight := <[name := [caller]]> (inflight s);
                 lookups := name :: lookups s; answered := answered s |}
          end
      end
  | Complete name party =>
      match inflight s !! name with
      | Some waiting =>
          {| cache := <[name := party]> (cache s); inflight := delete name (inflight s);
             lookups := lookups s;
             answered := map (fun caller => (caller, name, party)) waiting ++ answered s |}
      | None => s
      end
  end.

Definition resolverRun (s : ResolverState) (events : list ResolverEvent) : ResolverState :=
  fold_left resolverStep events s.

(** The number of external lookups issued for [name]. *)
Definition lookupsFor (name : jsstring) (s : ResolverState) : nat :=
  length (List.filter (fun n => strEq n name) (lookups s)).

(** The invariant of the resolver. *)
Definition resolverInv (s : ResolverState) : Prop :=
  forall name,
    (cache s !! name = None \/ inflight s !! name = None)
    /\ lookupsFor name s
       = (if bool_decide (cache s !! name = None /\ inflight s !! name = None) then 0 else 1)
    /\ (forall caller party, In (caller, name, party) (answered s) ->
        cache s !! name = Some party).

(** ** Sample data *)

Definition mkPoll {num : Type} (i ty date : string) (ans : list (string * num)) : Poll num :=
  {| poll_id := lit i; poll_type := lit ty; end_date := lit date; sample_size := None;
     answers := Some (map (fun '(c, p) => {| choice := lit c; pct := p |}) ans) |}.

(** The two approval polls of the end-to-end scenario. *)
Definition firstApprovalPoll : Poll float :=
  mkPoll "p1" "approval" "2024-05-01" [("Approve", 45%float); ("Disapprove", 50%float)].

Definition secondApprovalPoll : Poll float :=
  mkPoll "p2" "approval" "2024-05-08" [("Approve.", 44%float); ("Disapprove", 51%float)].

Definition approvalPolls : list (Poll float) := [firstApprovalPoll; secondApprovalPoll].

(** A colour map that gives "Approve" a colour of its own. *)
Definition overridingColors : gmap jsstring jsstring := <[lit "Approve" := lit "#123456"]> ∅.

(** Polls whose type and labels are written in another case. *)
Definition shoutedApprovalPoll : Poll float :=
  mkPoll "p3" "Approval" "2024-05-09" [("APPROVE.", 41%float); ("Disapprove", 52%float)].

Definition ballotPoll : Poll float :=
  mkPoll "p4" "Generic-Ballot" "2024-05-09" [("Dem", 44%float); ("REP", 45%float)].


Definition approvalColors : gmap jsstring jsstring :=
  <[lit "Approve" := GREEN]> (<[lit "Disapprove" := ORANGE]> ∅).


(** What the scan holds for "Approve" after these two polls, and the entry
    derived from it. *)
Definition approveStats : ChoiceStats float :=
  {| total := 89%float; count := 2; displayName := lit "Approve";
     originalNames := [lit "Approve"; lit "Approve."] |}.

Definition approveItem : UniqueChoice float :=
  {| uc_normalized := lit "Approve"; uc_displayName := lit "Approve";
     uc_average := 44.5%float |}.

(** Three polls with the end dates of the sorting example. *)
Definition datedPolls : list (Poll float) :=
  [ mkPoll "a" "approval" "2024-01-01" [];
    mkPoll "b" "approval" "2024-03-01" [];
    mkPoll "c" "approval" "2024-02-01" [] ].

(** Three callers ask for the same uncached name while a fourth asks for
    another; then both lookups return. *)
Definition threeCallers : list ResolverEvent :=
  [ Call 1 (lit "Jane Roe"); Call 2 (lit "Jane Roe"); Call 7 (lit "John Doe");
    Call 3 (lit "Jane Roe"); Complete (lit "Jane Roe") Independent;
    Complete (lit "John Doe") Unknown ].

(** A poll with twelve distinct choices. *)
Definition crowdedPoll : list (Poll float) :=
  [ mkPoll "q" "primary" "2024-01-01"
      [("A", 5%float); ("B", 12%float); ("C", 7%float); ("D", 1%float);
       ("E", 9%float); ("F", 3%float); ("G", 11%float); ("H", 2%float);
       ("I", 10%float); ("J", 4%float); ("K", 8%float); ("L", 6%float)] ].

(** ** components/PollsTable.tsx: cells of the table *)

(** The test [x === 0] on numbers. *)
Class JsNumberZero (num : Type) := { nisZero : num -> bool }.

#[export] Instance QNumberZero : JsNumberZero Q := {| nisZero := fun x => (Qnum x =? 0)%Z |}.

#[export] Instance FloatNumberZero : JsNumberZero float :=
  {| nisZero := fun x => PrimFloat.eqb x 0%float |}.

(** The object returned by [getWinnerInfo]. *)
Record WinnerInfo (num : Type) := { winner : jsstring; margin : num }.
Arguments winner {num} _.
Arguments margin {num} _.

(** What the Result cell of a row shows: '-', "Tied" in black, or the
    winner with its margin in the winner's colour. *)
Inductive ResultCell (num : Type) :=
| NoResult
| Tied (color : jsstring)
| Leader (name : jsstring) (lead : num) (color : JsValue).
Arguments NoResult {num}.
Arguments Tied {num} _.
Arguments Leader {num} _ _ _.

Section PollsTable.
Context {num : Type} {JN : JsNumber num} {JZ : JsNumberZero num}.

(** [getAnswerPct]: the percentage of the first answer of the poll whose
    canonical key is [normalizedChoice], [null] when there is none. *)
Definition getAnswerPct (poll : Poll num) (normalizedChoice : jsstring) : option num :=
  match answers poll with
  | None => None
  | Some l =>
      match List.find (fun a => strEq (normalizeChoice (choice a)) normalizedChoice) l with
      | Some answer => Some (pct answer)
      | None => None
      end
  end.

(** The comparator [(a, b) => b.pct - a.pct], tested for [> 0]. *)
Definition byPctDesc (a b : Answer num) : bool := npositive (nsub (pct b) (pct a)).

(** [getWinnerInfo]; [choiceStats] is the map of the enclosing component. *)
Definition getWinnerInfo (choiceStats : list (jsstring * ChoiceStats num)) (poll : Poll num)
  : option (WinnerInfo num) :=
  match answers poll with
  | None => None
  | Some [] => None
  | Some l =>
      match jsSort byPctDesc l with
      | [] => None
      | top :: rest =>
          let margin' :=
            match rest with
            | second :: _ => nsub (pct top) (pct second)
            | [] => pct top
            end in
          let normalizedWinner := normalizeChoice (choice top) in
          let displayName' :=
            match mapGet normalizedWinner choiceStats with
            | Some st =>
                match displayName st with
                | c :: r => c :: r
                | [] => choice top
                end
            | None => choice top
            end in
          Some {| winner := displayName'; margin := margin' |}
      end
  end.

(** The Result cell of the row of [poll]. *)
Definition resultCell (choiceStats : list (jsstring * ChoiceStats num))
    (colorMap : gmap jsstring jsstring) (poll : Poll num) : ResultCell num :=
  match getWinnerInfo choiceStats poll with
  | None => NoResult
  | Some winnerInfo =>
      if nisZero (margin winnerInfo) then Tied BLACK
      else Leader (winner winnerInfo) (margin winnerInfo)
                  (getWinnerColor colorMap poll (winner winnerInfo))
  end.

Definition MUTED : jsstring := lit "#9ca3af".

(** The colour of the cell of [poll] in the column of [item]:
    [pct !== null ? (choiceColor || '#000000') : '#9ca3af']. *)
Definition choiceCellColor (colorMap : gmap jsstring jsstring) (poll : Poll num)
    (item : UniqueChoice num) : JsValue :=
  match getAnswerPct poll (uc_normalized item) with
  | Some _ => colorOr colorMap (uc_displayName item) BLACK
  | None => VString MUTED
  end.

(** The columns of the table: [uniqueChoices.slice(0, 10)]. *)
Definition tableColumns (polls : list (Poll num)) : list (UniqueChoice num) :=
  firstn 10 (uniqueChoices polls).

End PollsTable.

(** ** app/page.tsx: the divisions of a response *)

Section Page.
Context {num : Type}.

(** One value of the response object: [{ polls, color_map }], the colour
    map being optional. *)
Record DivisionData := {
  div_polls : list (Poll num);
  div_color_map : option (gmap jsstring jsstring)
}.

(** One value of the [grouped] map. *)
Record PollGroup := {
  g_subject : jsstring;
  g_pollType : jsstring;
  g_polls : list (Poll num);
  g_colorMap : gmap jsstring jsstring
}.

(** [`${subject}|${pollType}`] *)
Definition groupKeyOf (divisionKey : jsstring) : jsstring :=
  let '(subject, pollType) := parseDivisionKey divisionKey in
  subject ++ lit "|" ++ pollType.

(** The body of [Object.entries(data).forEach]: the state is the [grouped]
    map and the [allPolls] array. *)
Definition addDivision (getTime : jsstring -> option Z)
    (state : list (jsstring * PollGroup) * list (Poll num))
    (entry : jsstring * DivisionData) : list (jsstring * PollGroup) * list (Poll num) :=
  let '(grouped, allPolls) := state in
  let '(divisionKey, divisionData) := entry in
  let '(subject, pollType) := parseDivisionKey divisionKey in
  let sorted := sortedPolls getTime (div_polls divisionData) in
  let groupKey := subject ++ lit "|" ++ pollType in
  (mapSet groupKey
     {| g_subject := subject; g_pollType := pollType; g_polls := sorted;
        g_colorMap := match div_color_map divisionData with Some m => m | None => ∅ end |}
     grouped,
   allPolls ++ sorted).

(** [grouped] and [allPolls] after the loop over the entries of the
    response, given in the order of [Object.entries]. *)
Definition groupDivisions (getTime : jsstring -> option Z)
    (data : list (jsstring * DivisionData)) : list (jsstring * PollGroup) * list (Poll num) :=
  fold_left (addDivision getTime) data ([], []).

(** The tab made active: [Array.from(grouped.keys())[0]], when truthy. *)
Definition firstTab (grouped : list (jsstring * PollGroup)) : option jsstring :=
  match grouped with
  | (c :: r, _) :: _ => Some (c :: r)
  | _ => None
  end.

End Page.

Arguments DivisionData : clear implicits.
Arguments PollGroup : clear implicits.

(** ** Further vocabulary *)

(** A canonical key: no period, no comma, no white space other than single
    SPACE characters between other characters. *)
Fixpoint singleSpaced (s : jsstring) : bool :=
  match s with
  | [] => true
  | c :: r =>
      (if isWhiteSpace c
       then Ascii.eqb c SPACE && match r with [] => false | d :: _ => negb (isWhiteSpace d) end
       else true)
      && singleSpaced r
  end.

Definition startsClean (s : jsstring) : bool :=
  match s with [] => true | c :: _ => negb (isWhiteSpace c) end.

Definition canonical (s : jsstring) : Prop :=
  noPunct s /\ startsClean s = true /\ singleSpaced s = true.

(** The first, second, ... answers of [polls] that are equal in date to
    [t]. *)
Definition endingAt {num : Type} (getTime : jsstring -> option Z) (t : Z) (p : Poll num) : bool :=
  match getTime (end_date p) with Some t' => (t' =? t)%Z | None => false end.

(** The last code unit, if any, is not white space. *)
Fixpoint endsClean (s : jsstring) : bool :=
  match s with
  | [] => true
  | c :: r => match r with [] => negb (isWhiteSpace c) | _ :: _ => endsClean r end
  end.

(** The number of answers accounted for by a [choiceStats] map. *)
Definition countedAnswers {num : Type} (choiceStats : list (jsstring * ChoiceStats num)) : nat :=
  list_sum (map (fun entry => count (snd entry)) choiceStats).


(** The answers of a poll as [getWinnerInfo] ranks them. *)
Definition rankedAnswers {num : Type} {JN : JsNumber num} (poll : Poll num) : list (Answer num) :=
  jsSort byPctDesc (answersOf poll).


(** The name under which the table shows the choice of [top]: its canonical
    key, or the label itself when that key is the empty string. *)
Definition shownName {num : Type} (top : Answer num) : jsstring :=
  match normalizeChoice (choice top) with
  | [] => choice top
  | c :: r => c :: r
  end.


(** Polls over exact rationals. *)
Definition mkPollQ (i ty date : string) (ans : list (string * Q)) : Poll Q :=
  {| poll_id := lit i; poll_type := lit ty; end_date := lit date; sample_size := None;
     answers := Some (map (fun '(c, p) => {| choice := lit c; pct := p |}) ans) |}.

Definition closeRace : Poll Q :=
  mkPollQ "r" "approval" "2024-06-01" [("Approve", 45%Q); ("Disapprove.", 48.5%Q)].

Definition PIPE : ascii := "|"%char.

(** The group that [handleSearch] stores for one entry of the response. *)
Definition groupOf {num : Type} (getTime : jsstring -> option Z)
    (entry : jsstring * DivisionData num) : PollGroup num :=
  {| g_subject := fst (parseDivisionKey (fst entry));
     g_pollType := snd (parseDivisionKey (fst entry));
     g_polls := sortedPolls getTime (div_polls (snd entry));
     g_colorMap := match div_color_map (snd entry) with Some m => m | None => ∅ end |}.

(** The last entry of the response whose division key yields the group key
    [k]. *)
Definition lastWithGroupKey {num : Type} (k : jsstring) (data : list (jsstring * DivisionData num))
  : option (jsstring * DivisionData num) :=
  List.find (fun entry => strEq (groupKeyOf (fst entry)) k) (rev data).

(** A response with two divisions. *)
Definition twoDivisions : list (jsstring * DivisionData float) :=
  [ (lit "Biden_approval", {| div_polls := approvalPolls; div_color_map := Some approvalColors |});
    (lit "Generic_generic-ballot", {| div_polls := [ballotPoll]; div_color_map := None |}) ].

(** ** components/ChartView.tsx: the points of the line chart *)

Section ChartView.
Context {num : Type} {JN : JsNumber num}.

(** The elements of the arrays of [choiceDataMap]; [date] is kept as its
    time value, [None] for an invalid date. *)
Record DataPoint := {
  dp_date : option Z;
  dp_value : num;
  dp_poll : Poll num
}.

(** The comparator
    [new Date(a.end_date).getTime() - new Date(b.end_date).getTime()],
    tested for [> 0]. *)
Definition byEndDateAsc (getTime : jsstring -> option Z) (a b : Poll num) : bool :=
  match getTime (end_date a), getTime (end_date b) with
  | Some ta, Some tb => (0 <? ta - tb)%Z
  | _, _ => false
  end.

(** [[...polls].sort(...)] *)
Definition chartPolls (getTime : jsstring -> option Z) (polls : list (Poll num)) : list (Poll num) :=
  jsSort (byEndDateAsc getTime) polls.

(** The body of the inner [forEach]: the answer is filed under the display
    name of the first choice whose normalized display name equals the
    normalized label, and dropped when there is none. *)
Definition addPoint (getTime : jsstring -> option Z) (choices : list (ChoiceData num))
    (choiceDataMap : list (jsstring * list DataPoint)) (poll : Poll num) (answer : Answer num)
  : list (jsstring * list DataPoint) :=
  let normalizedAnswer := normalizeChoice (choice answer) in
  match List.find (fun c => strEq (normalizeChoice (cd_displayName c)) normalizedAnswer) choices with
  | Some choiceEntry =>
      let points :=
        match mapGet (cd_displayName choiceEntry) choiceDataMap with
        | Some l => l
        | None => []
        end in
      mapSet (cd_displayName choiceEntry)
        (points ++ [{| dp_date := getTime (end_date poll); dp_value := pct answer;
                       dp_poll := poll |}])
        choiceDataMap
  | None => choiceDataMap
  end.

Definition choiceDataMapOf (getTime : jsstring -> option Z) (choices : list (ChoiceData num))
    (polls : list (Poll num)) : list (jsstring * list DataPoint) :=
  fold_left
    (fun m poll => fold_left (fun m' answer => addPoint getTime choices m' poll answer)
                             (answersOf poll) m)
    (chartPolls getTime polls) [].

(** The comparator [a.date.getTime() - b.date.getTime()], tested for
    [> 0]. *)
Definition byPointDateAsc (a b : DataPoint) : bool :=
  match dp_date a, dp_date b with
  | Some ta, Some tb => (0 <? ta - tb)%Z
  | _, _ => false
  end.

(** [rawData] as [lineChartData] returns it: the arrays of the map have been
    sorted in place by [dataPoints.sort(...)] while the rolling averages were
    computed. *)
Definition rawData (getTime : jsstring -> option Z) (choices : list (ChoiceData num))
    (polls : list (Poll num)) : list (jsstring * list DataPoint) :=
  map (fun '(choiceName, dataPoints) => (choiceName, jsSort byPointDateAsc dataPoints))
      (choiceDataMapOf getTime choices polls).

(** The (poll, answer) pairs in the order of the two nested loops. *)
Definition answerPairs (polls : list (Poll num)) : list (Poll num * Answer num) :=
  flat_map (fun poll => map (pair poll) (answersOf poll)) polls.

Definition pointOf (getTime : jsstring -> option Z) (pa : Poll num * Answer num) : DataPoint :=
  {| dp_date := getTime (end_date (fst pa)); dp_value := pct (snd pa); dp_poll := fst pa |}.

(** The points of the answers with canonical key [key]. *)
Definition pointsFor (getTime : jsstring -> option Z) (key : jsstring)
    (pairs : list (Poll num * Answer num)) : list DataPoint :=
  map (pointOf getTime) (List.filter (fun pa => inCluster key (snd pa)) pairs).

(** Point [a] is dated no later than point [b], both dates being valid. *)
Definition datedNoLater (a b : DataPoint) : Prop :=
  match dp_date a, dp_date b with
  | Some ta, Some tb => (ta <= tb)%Z
  | _, _ => False
  end.

End ChartView.

Arguments DataPoint : clear implicits.

(** The scan of [choiceDataMapOf] over a flat list of (poll, answer) pairs. *)
Definition scanPairs {num : Type} {JN : JsNumber num} (getTime : jsstring -> option Z)
    (choices : list (ChoiceData num)) (pairs : list (Poll num * Answer num))
  : list (jsstring * list (DataPoint num)) :=
  fold_left (fun m pa => addPoint getTime choices m (fst pa) (snd pa)) pairs [].

(** ** app/page.tsx: the guard of handleSearch *)

(** [!query.trim()]: the search is abandoned for such a query. *)
Definition queryIsBlank (query : jsstring) : bool :=
  match trim query with
  | [] => true
  | _ :: _ => false
  end.

(** * Properties *)

(** ** White space, punctuation and the string primitives *)

Lemma isWhiteSpace_SPACE : isWhiteSpace SPACE = true.
Proof. reflexivity. Qed.

Lemma whiteSpace_not_punct c d :
  isWhiteSpace c = true -> d = PERIOD \/ d = COMMA -> negb (Ascii.eqb c d) = true.
Proof.
  intros Hc Hd. destruct (Ascii.eqb_spec c d) as [->|]; [|reflexivity].
  destruct Hd as [->| ->]; discriminate Hc.
Qed.

Lemma removeAll_app c u v : removeAll c (u ++ v) = removeAll c u ++ removeAll c v.
Proof. apply List.filter_app. Qed.

Lemma removeAll_same c v : removeAll c (c :: v) = removeAll c v.
Proof. unfold removeAll. simpl. now rewrite Ascii.eqb_refl. Qed.

Lemma removeAll_whiteSpace d w :
  d = PERIOD \/ d = COMMA -> allWhiteSpace w -> removeAll d w = w.
Proof.
  intros Hd. induction 1 as [|c w Hc _ IH]; [reflexivity|].
  unfold removeAll in *. simpl. now rewrite (whiteSpace_not_punct c d Hc Hd), IH.
Qed.

Lemma allWhiteSpace_app u v : allWhiteSpace u -> allWhiteSpace v -> allWhiteSpace (u ++ v).
Proof. intros. now apply Forall_app. Qed.

Lemma replaceWsRuns_app b x z :
  replaceWsRuns b (x ++ z) = replaceWsRuns b x ++ replaceWsRuns (runFlagAfter b x) z.
Proof.
  revert b. induction x as [|c x IH]; intros b; [reflexivity|].
  simpl. destruct (isWhiteSpace c) eqn:Hc.
  - destruct b; rewrite IH; reflexivity.
  - rewrite IH. reflexivity.
Qed.

Lemma replaceWsRuns_true_whiteSpace w y :
  allWhiteSpace w -> replaceWsRuns true (w ++ y) = replaceWsRuns true y.
Proof. induction 1 as [|c w Hc _ IH]; [reflexivity|]. simpl. now rewrite Hc. Qed.

Lemma replaceWsRuns_run b w y :
  allWhiteSpace w -> w <> [] ->
  replaceWsRuns b (w ++ y) = (if b then [] else [SPACE]) ++ replaceWsRuns true y.
Proof.
  intros Hw Hne. destruct Hw as [|c w Hc Hw]; [congruence|].
  simpl. rewrite Hc, (replaceWsRuns_true_whiteSpace w y Hw). now destruct b.
Qed.

Lemma replaceWsRuns_whiteSpace b w : allWhiteSpace w -> allWhiteSpace (replaceWsRuns b w).
Proof.
  intros Hw. revert b. induction Hw as [|c w Hc _ IH]; intros b; [constructor|].
  simpl. rewrite Hc. destruct b; [apply IH|]. constructor; [reflexivity|apply IH].
Qed.

Lemma trimStart_whiteSpace w x : allWhiteSpace w -> trimStart (w ++ x) = trimStart x.
Proof. induction 1 as [|c w Hc _ IH]; [reflexivity|]. simpl. now rewrite Hc. Qed.

Lemma trimStart_all_whiteSpace w : allWhiteSpace w -> trimStart w = [].
Proof. intros Hw. rewrite <- (app_nil_r w). now rewrite trimStart_whiteSpace. Qed.

Lemma trimStart_replaceWsRuns b u :
  trimStart (replaceWsRuns b u) = replaceWsRuns false (trimStart u).
Proof.
  revert b. induction u as [|c u IH]; intros b; [reflexivity|].
  simpl. destruct (isWhiteSpace c) eqn:Hc.
  - destruct b; simpl; rewrite ?isWhiteSpace_SPACE; apply IH.
  - simpl. now rewrite Hc.
Qed.

Lemma allWhiteSpace_rev w : allWhiteSpace w -> allWhiteSpace (rev w).
Proof. apply Forall_rev. Qed.

Lemma trimEnd_whiteSpace x w : allWhiteSpace w -> trimEnd (x ++ w) = trimEnd x.
Proof.
  intros Hw. unfold trimEnd. rewrite rev_app_distr.
  now rewrite trimStart_whiteSpace by now apply allWhiteSpace_rev.
Qed.

Lemma trim_whiteSpace_r y w : allWhiteSpace w -> trim (y ++ w) = trim y.
Proof.
  intros Hw. unfold trim. induction y as [|c y IH]; simpl.
  - now rewrite trimStart_all_whiteSpace.
  - destruct (isWhiteSpace c); [exact IH|].
    exact (trimEnd_whiteSpace (c :: y) w Hw).
Qed.

Lemma trim_whiteSpace_l w y : allWhiteSpace w -> trim (w ++ y) = trim y.
Proof. intros Hw. unfold trim. now rewrite trimStart_whiteSpace. Qed.

(** ** normalizeChoice on equivalent labels *)

Lemma stripPunct_app u v : stripPunct (u ++ v) = stripPunct u ++ stripPunct v.
Proof. unfold stripPunct. now rewrite !removeAll_app. Qed.

Lemma stripPunct_whiteSpace w : allWhiteSpace w -> stripPunct w = w.
Proof.
  intros Hw. unfold stripPunct.
  rewrite (removeAll_whiteSpace PERIOD w) by auto.
  now rewrite (removeAll_whiteSpace COMMA w) by auto.
Qed.

Lemma stripPunct_PERIOD v : stripPunct (PERIOD :: v) = stripPunct v.
Proof. unfold stripPunct. now rewrite removeAll_same. Qed.

Lemma stripPunct_COMMA v : stripPunct (COMMA :: v) = stripPunct v.
Proof. unfold stripPunct. change (removeAll PERIOD (COMMA :: v)) with (COMMA :: removeAll PERIOD v).
  now rewrite removeAll_same. Qed.

(** C1. Labels that differ only in periods, commas or runs of white space
    (leading and trailing white space included) have the same canonical key;
    in particular "R.F.K. Jr.", "RFK Jr" and "RFK  Jr." share one key. *)
Theorem normalizeChoice_same_key :
  (forall a b : jsstring, punctWsEquiv a b -> normalizeChoice a = normalizeChoice b)
  /\ normalizeChoice (lit "R.F.K. Jr.") = normalizeChoice (lit "RFK Jr")
  /\ normalizeChoice (lit "RFK  Jr.") = normalizeChoice (lit "RFK Jr").
Proof.
  split; [|split; reflexivity]. intros a b.
  change normalizeChoice with (fun s => trim (replaceWsRuns false (stripPunct s))).
  induction 1 as [s|s t _ IH|s t u _ IH1 _ IH2|u v|u v|u w1 w2 v H1 H2 N1 N2|w u Hw|u w Hw]; simpl in *.
  - reflexivity.
  - now symmetry.
  - now transitivity (trim (replaceWsRuns false (stripPunct t))).
  - now rewrite !stripPunct_app, stripPunct_PERIOD.
  - now rewrite !stripPunct_app, stripPunct_COMMA.
  - rewrite !stripPunct_app, (stripPunct_whiteSpace w1 H1), (stripPunct_whiteSpace w2 H2).
    rewrite 2!(replaceWsRuns_app false (stripPunct u)).
    now rewrite (replaceWsRuns_run _ w1 _ H1 N1), (replaceWsRuns_run _ w2 _ H2 N2).
  - rewrite stripPunct_app, (stripPunct_whiteSpace w Hw).
    unfold trim. rewrite !trimStart_replaceWsRuns. now rewrite trimStart_whiteSpace.
  - rewrite stripPunct_app, (stripPunct_whiteSpace w Hw).
    rewrite replaceWsRuns_app. apply trim_whiteSpace_r.
    now apply replaceWsRuns_whiteSpace.
Qed.

Lemma normalizeChoice_same_key_witness :
  punctWsEquiv (lit "R.F.K. Jr.") (lit " RFK  Jr")
  /\ normalizeChoice (lit "R.F.K. Jr.") = normalizeChoice (lit " RFK  Jr").
Proof.
  assert (H : punctWsEquiv (lit "R.F.K. Jr.") (lit " RFK  Jr")).
  { apply pw_trans with (lit "RF.K. Jr."); [exact (pw_period (lit "R") (lit "F.K. Jr."))|].
    apply pw_trans with (lit "RFK. Jr."); [exact (pw_period (lit "RF") (lit "K. Jr."))|].
    apply pw_trans with (lit "RFK Jr."); [exact (pw_period (lit "RFK") (lit " Jr."))|].
    apply pw_trans with (lit "RFK Jr"); [exact (pw_period (lit "RFK Jr") [])|].
    apply pw_trans with (lit "RFK  Jr").
    - apply (pw_run (lit "RFK") (lit " ") (lit "  ") (lit "Jr"));
        try discriminate; repeat constructor.
    - apply pw_sym. apply (pw_leading (lit " ") (lit "RFK  Jr")). repeat constructor. }
  split; [exact H|]. exact (proj1 normalizeChoice_same_key _ _ H).
Defined.


(** ** normalizeChoice reaches a fixed point *)

Lemma removeAll_absent c s : Forall (fun x => x <> c) s -> removeAll c s = s.
Proof.
  induction 1 as [|x s Hx _ IH]; [reflexivity|].
  unfold removeAll in *. simpl. destruct (Ascii.eqb_spec x c); [contradiction|]. simpl. now rewrite IH.
Qed.

Lemma stripPunct_noPunct s : noPunct (stripPunct s).
Proof.
  unfold noPunct, stripPunct, removeAll. apply List.Forall_forall. intros x Hx.
  apply filter_In in Hx as [Hx Hc]. apply filter_In in Hx as [_ Hp].
  split; intros ->; discriminate.
Qed.

Lemma stripPunct_fixed s : noPunct s -> stripPunct s = s.
Proof.
  intros H. unfold stripPunct.
  rewrite (removeAll_absent PERIOD s); [apply removeAll_absent|];
    (eapply List.Forall_impl; [|exact H]); simpl; tauto.
Qed.

Lemma noPunct_replaceWsRuns b s : noPunct s -> noPunct (replaceWsRuns b s).
Proof.
  intros H. revert b. induction H as [|c s Hc _ IH]; intros b; [constructor|].
  simpl. destruct (isWhiteSpace c).
  - destruct b; [apply IH|]. constructor; [split; discriminate|apply IH].
  - constructor; [exact Hc|apply IH].
Qed.

Lemma noPunct_trimStart s : noPunct s -> noPunct (trimStart s).
Proof.
  induction 1 as [|c s Hc Hs IH]; [constructor|].
  simpl. destruct (isWhiteSpace c); [exact IH|]. now constructor.
Qed.

Lemma noPunct_trim s : noPunct s -> noPunct (trim s).
Proof.
  intros H. unfold trim, trimEnd, noPunct.
  apply Forall_rev. apply noPunct_trimStart. apply Forall_rev. now apply noPunct_trimStart.
Qed.

Lemma replaceWsRuns_fixed b b' s :
  (b' = true -> b = true) ->
  replaceWsRuns b' (replaceWsRuns b s) = replaceWsRuns b s.
Proof.
  revert b b'. induction s as [|c s IH]; intros b b' Hb; [reflexivity|].
  simpl. destruct (isWhiteSpace c) eqn:Hc.
  - destruct b.
    + now apply IH.
    + destruct b'; [now discriminate Hb|].
      cbn [replaceWsRuns]. rewrite isWhiteSpace_SPACE. f_equal. now apply IH.
  - simpl. rewrite Hc. f_equal. apply IH. discriminate.
Qed.

Lemma runFlagAfter_snoc b x c : runFlagAfter b (x ++ [c]) = isWhiteSpace c.
Proof. unfold runFlagAfter. now rewrite fold_left_app. Qed.

Lemma replaceWsRuns_rev u : rev (replaceWsRuns false u) = replaceWsRuns false (rev u).
Proof.
  induction u as [|c r IH]; [reflexivity|].
  change (rev (c :: r)) with (rev r ++ [c]). rewrite replaceWsRuns_app.
  cbn [replaceWsRuns]. destruct (isWhiteSpace c) eqn:Hc.
  - destruct r as [|d r']; [reflexivity|].
    change (rev (d :: r')) with (rev r' ++ [d]) in *. rewrite runFlagAfter_snoc.
    cbn [replaceWsRuns] in *. destruct (isWhiteSpace d) eqn:Hd.
    + rewrite app_nil_r. rewrite <- IH. reflexivity.
    + rewrite <- IH. reflexivity.
  - cbn [rev]. now rewrite IH.
Qed.

Lemma trimEnd_replaceWsRuns u :
  trimEnd (replaceWsRuns false u) = replaceWsRuns false (trimEnd u).
Proof.
  unfold trimEnd.
  rewrite (replaceWsRuns_rev u), trimStart_replaceWsRuns. apply replaceWsRuns_rev.
Qed.

Lemma trim_replaceWsRuns u : trim (replaceWsRuns false u) = replaceWsRuns false (trim u).
Proof. unfold trim. now rewrite trimStart_replaceWsRuns, trimEnd_replaceWsRuns. Qed.

Lemma trimStart_app a b :
  trimStart (a ++ b) = match trimStart a with [] => trimStart b | _ :: _ => trimStart a ++ b end.
Proof.
  induction a as [|c a IH]; [reflexivity|].
  simpl. destruct (isWhiteSpace c); [exact IH|reflexivity].
Qed.

Lemma trimStart_fixed s : trimStart (trimStart s) = trimStart s.
Proof.
  induction s as [|c s IH]; [reflexivity|].
  simpl. destruct (isWhiteSpace c) eqn:Hc; [exact IH|]. simpl. now rewrite Hc.
Qed.

Lemma trimEnd_cons c r :
  trimEnd (c :: r)
  = match trimEnd r with
    | [] => if isWhiteSpace c then [] else [c]
    | _ :: _ => c :: trimEnd r
    end.
Proof.
  unfold trimEnd. cbn [rev]. rewrite trimStart_app.
  destruct (trimStart (rev r)) as [|x t] eqn:E.
  - simpl. now destruct (isWhiteSpace c).
  - rewrite rev_app_distr. simpl.
    destruct (rev t ++ [x]) eqn:E2; [now destruct (rev t)|reflexivity].
Qed.

Lemma trimStart_trimEnd s : trimStart (trimEnd s) = trimEnd (trimStart s).
Proof.
  induction s as [|c s IH]; [reflexivity|].
  rewrite trimEnd_cons. cbn [trimStart]. destruct (isWhiteSpace c) eqn:Hc.
  - destruct (trimEnd s) as [|x t] eqn:E.
    + rewrite <- IH. reflexivity.
    + cbn [trimStart]. rewrite Hc. exact IH.
  - rewrite trimEnd_cons. destruct (trimEnd s); cbn [trimStart]; rewrite Hc; reflexivity.
Qed.

Lemma trimEnd_fixed s : trimEnd (trimEnd s) = trimEnd s.
Proof. unfold trimEnd. now rewrite rev_involutive, trimStart_fixed. Qed.

Lemma trim_fixed s : trim (trim s) = trim s.
Proof.
  unfold trim. now rewrite trimStart_trimEnd, trimStart_fixed, trimEnd_fixed.
Qed.

(** The canonical key is the white-space normal form of the trimmed,
    punctuation-free label. *)
Lemma normalizeChoice_alt s :
  normalizeChoice s = replaceWsRuns false (trim (stripPunct s)).
Proof. unfold normalizeChoice. fold (stripPunct s). apply trim_replaceWsRuns. Qed.

(** C8. normalizeChoice is idempotent: normalising a canonical key returns
    it unchanged. *)
Theorem normalizeChoice_idempotent :
  forall label : jsstring, normalizeChoice (normalizeChoice label) = normalizeChoice label.
Proof.
  intros s.
  rewrite (normalizeChoice_alt (normalizeChoice s)).
  assert (Hnp : noPunct (normalizeChoice s)).
  { rewrite normalizeChoice_alt. apply noPunct_replaceWsRuns, noPunct_trim, stripPunct_noPunct. }
  rewrite (stripPunct_fixed _ Hnp).
  rewrite (normalizeChoice_alt s), trim_replaceWsRuns, trim_fixed.
  apply replaceWsRuns_fixed. tauto.
Qed.

(** ** The choiceStats map *)

Lemma strEq_true a b : strEq a b = true <-> a = b.
Proof. unfold strEq. apply bool_decide_eq_true. Qed.

Lemma strEq_false a b : strEq a b = false <-> a <> b.
Proof. unfold strEq. apply bool_decide_eq_false. Qed.

Lemma strEq_refl a : strEq a a = true.
Proof. now apply strEq_true. Qed.

Section MapFacts.
Context {V : Type}.
Implicit Types (m : list (jsstring * V)) (k : jsstring) (v : V).

Lemma mapGet_mapSet k k' v m :
  mapGet k (mapSet k' v m) = if strEq k' k then Some v else mapGet k m.
Proof.
  induction m as [|[k0 v0] m IH]; simpl.
  - reflexivity.
  - destruct (strEq k0 k') eqn:E1; simpl.
    + apply strEq_true in E1 as ->. now destruct (strEq k' k).
    + rewrite IH. destruct (strEq k0 k) eqn:E2; [|reflexivity].
      apply strEq_true in E2 as ->. destruct (strEq k' k) eqn:E3; [|reflexivity].
      apply strEq_true in E3 as ->. now rewrite strEq_refl in E1.
Qed.

Lemma mapGet_Some_In k v m : mapGet k m = Some v -> In (k, v) m.
Proof.
  induction m as [|[k0 v0] m IH]; simpl; [discriminate|].
  destruct (strEq k0 k) eqn:E.
  - apply strEq_true in E as ->. intros [= ->]. now left.
  - intros H. right. now apply IH.
Qed.

Lemma mapGet_None_keys k m : mapGet k m = None -> ~ In k (map fst m).
Proof.
  induction m as [|[k0 v0] m IH]; simpl; [tauto|].
  destruct (strEq k0 k) eqn:E; [discriminate|].
  apply strEq_false in E. intros H [H1|H1]; [contradiction|]. now apply IH.
Qed.

Lemma In_mapGet k v m : List.NoDup (map fst m) -> In (k, v) m -> mapGet k m = Some v.
Proof.
  induction m as [|[k0 v0] m IH]; simpl; [tauto|].
  intros Hnd [H|H].
  - injection H as -> ->. now rewrite strEq_refl.
  - apply List.NoDup_cons_iff in Hnd as [Hk0 Hnd]. destruct (strEq k0 k) eqn:E.
    + apply strEq_true in E as ->. exfalso. apply Hk0.
      change k with (fst (k, v)). now apply in_map.
    + now apply IH.
Qed.

Lemma mapSet_keys k v m :
  map fst (mapSet k v m)
  = match mapGet k m with Some _ => map fst m | None => map fst m ++ [k] end.
Proof.
  induction m as [|[k0 v0] m IH]; simpl; [reflexivity|].
  destruct (strEq k0 k) eqn:E; simpl; [reflexivity|].
  rewrite IH. now destruct (mapGet k m).
Qed.

Lemma mapSet_NoDup k v m : List.NoDup (map fst m) -> List.NoDup (map fst (mapSet k v m)).
Proof.
  intros Hnd. rewrite mapSet_keys. destruct (mapGet k m) eqn:E; [exact Hnd|].
  apply mapGet_None_keys in E.
  apply List.NoDup_rev in Hnd. rewrite <- (rev_involutive (map fst m ++ [k])).
  apply List.NoDup_rev. rewrite rev_app_distr. simpl.
  constructor; [|exact Hnd]. now rewrite <- in_rev.
Qed.

End MapFacts.

Section ScanFacts.
Context {num : Type} {JN : JsNumber num}.
Implicit Types (polls : list (Poll num)) (a : Answer num) (k key : jsstring).

Lemma choiceStatsOf_scanAll polls : choiceStatsOf polls = scanAll (allAnswers polls).
Proof.
  unfold choiceStatsOf, scanAll, allAnswers. generalize (@nil (jsstring * ChoiceStats num)).
  induction polls as [|p polls IH]; intros m; [reflexivity|].
  simpl. rewrite fold_left_app. apply IH.
Qed.

Lemma scanAll_snoc l a : scanAll (l ++ [a]) = scanAnswer (scanAll l) a.
Proof. unfold scanAll. now rewrite fold_left_app. Qed.

Lemma scanAll_NoDup l : List.NoDup (map fst (scanAll l)).
Proof.
  induction l as [|a l IH] using rev_ind; [constructor|].
  rewrite scanAll_snoc. unfold scanAnswer. now apply mapSet_NoDup.
Qed.

Lemma statsOfCluster_snoc key cl a :
  statsOfCluster key (cl ++ [a])
  = let stats := match statsOfCluster key cl with
                 | Some st => st
                 | None => {| total := nzero; count := 0; displayName := key; originalNames := [] |}
                 end in
    Some {| total := nadd (total stats) (pct a);
            count := count stats + 1;
            displayName := if (length (choice a) <? length (displayName stats))%nat
                           then choice a else displayName stats;
            originalNames := originalNames stats ++ [choice a] |}.
Proof.
  destruct cl as [|x cl]; [reflexivity|].
  cbn [statsOfCluster app]. cbv zeta. cbn [total count displayName originalNames].
  change (x :: cl ++ [a]) with ((x :: cl) ++ [a]).
  unfold sumOf, shortestFirst. rewrite !map_app, !fold_left_app, length_app.
  reflexivity.
Qed.

(** The map after the scan, key by key. *)
Lemma scanAll_lookup l key :
  mapGet key (scanAll l) = statsOfCluster key (List.filter (inCluster key) l).
Proof.
  induction l as [|a l IH] using rev_ind; [reflexivity|].
  rewrite scanAll_snoc, List.filter_app. unfold scanAnswer at 1.
  rewrite mapGet_mapSet. cbn [List.filter]. unfold inCluster at 2.
  destruct (strEq (normalizeChoice (choice a)) key) eqn:E.
  - apply strEq_true in E. rewrite E, IH, statsOfCluster_snoc. reflexivity.
  - now rewrite app_nil_r.
Qed.

Lemma choiceStatsOf_lookup polls key :
  mapGet key (choiceStatsOf polls) = statsOfCluster key (clusterOf key polls).
Proof. rewrite choiceStatsOf_scanAll. apply scanAll_lookup. Qed.

Lemma choiceStatsOf_In polls key st :
  In (key, st) (choiceStatsOf polls) <-> statsOfCluster key (clusterOf key polls) = Some st.
Proof.
  rewrite <- choiceStatsOf_lookup. split.
  - apply In_mapGet. rewrite choiceStatsOf_scanAll. apply scanAll_NoDup.
  - apply mapGet_Some_In.
Qed.

End ScanFacts.

(** ** Lengths and the display name *)

Lemma removeAll_length c s : length (removeAll c s) <= length s.
Proof. apply List.filter_length_le. Qed.

Lemma replaceWsRuns_length b s : length (replaceWsRuns b s) <= length s.
Proof.
  revert b. induction s as [|c s IH]; intros b; simpl; [lia|].
  pose proof (IH true). pose proof (IH false).
  destruct (isWhiteSpace c); [destruct b|]; simpl; lia.
Qed.

Lemma trimStart_length s : length (trimStart s) <= length s.
Proof.
  induction s as [|c s IH]; simpl; [lia|]. destruct (isWhiteSpace c); simpl; lia.
Qed.

Lemma trim_length s : length (trim s) <= length s.
Proof.
  unfold trim, trimEnd. rewrite length_rev.
  etransitivity; [apply trimStart_length|]. rewrite length_rev. apply trimStart_length.
Qed.

Lemma normalizeChoice_length s : length (normalizeChoice s) <= length s.
Proof.
  unfold normalizeChoice.
  etransitivity; [apply trim_length|].
  etransitivity; [apply replaceWsRuns_length|].
  etransitivity; apply removeAll_length.
Qed.

Lemma shortestFirst_seed seed labels :
  (forall c, In c labels -> length seed <= length c) -> shortestFirst seed labels = seed.
Proof.
  unfold shortestFirst. induction labels as [|c labels IH]; intros H; [reflexivity|].
  simpl. assert (Hc : length seed <= length c) by (apply H; now left).
  apply Nat.ltb_ge in Hc. rewrite Hc. apply IH. intros c' Hc'. apply H. now right.
Qed.

(** ** Sorting *)

Section SortFacts.
Context {A : Type} (gt : A -> A -> bool).

Lemma insertSorted_perm x l : Permutation (insertSorted gt x l) (x :: l).
Proof.
  induction l as [|y l IH]; simpl; [reflexivity|].
  destruct (gt x y); [|reflexivity].
  rewrite IH. apply perm_swap.
Qed.

Lemma jsSort_perm l : Permutation (jsSort gt l) l.
Proof.
  induction l as [|x l IH]; simpl; [reflexivity|].
  rewrite insertSorted_perm. now constructor.
Qed.

Lemma jsSort_In x l : In x (jsSort gt l) <-> In x l.
Proof. split; apply Permutation_in; [|symmetry]; apply jsSort_perm. Qed.

Lemma jsSort_length l : length (jsSort gt l) = length l.
Proof. apply Permutation_length, jsSort_perm. Qed.

Variable P : A -> Prop.
Hypothesis gt_asym : forall x y, P x -> P y -> gt x y = true -> gt y x = false.
Hypothesis ngt_trans :
  forall x y z, P x -> P y -> P z -> gt x y = false -> gt y z = false -> gt x z = false.

Let before (x y : A) : Prop := gt x y = false.

Lemma insertSorted_Forall x l : P x -> List.Forall P l -> List.Forall P (insertSorted gt x l).
Proof.
  intros Hx Hl. apply List.Forall_forall. intros z Hz.
  apply (Permutation_in _ (insertSorted_perm x l)) in Hz.
  destruct Hz as [<-|Hz]; [exact Hx|]. now apply (proj1 (List.Forall_forall P l) Hl).
Qed.

Lemma insertSorted_sorted x l :
  P x -> List.Forall P l ->
  Sorted.StronglySorted before l -> Sorted.StronglySorted before (insertSorted gt x l).
Proof.
  intros Hx Hl Hs. induction Hs as [|y l Hs IH Hy]; simpl.
  - constructor; constructor.
  - apply List.Forall_cons_iff in Hl as [Py Pl]. destruct (gt x y) eqn:E.
    + constructor; [now apply IH|].
      apply List.Forall_forall. intros z Hz.
      apply (Permutation_in _ (insertSorted_perm x l)) in Hz. destruct Hz as [<-|Hz].
      * now apply gt_asym.
      * now apply (proj1 (List.Forall_forall _ l) Hy).
    + constructor; [now constructor|].
      constructor; [exact E|].
      apply List.Forall_forall. intros z Hz.
      apply (ngt_trans x y z); auto.
      * now apply (proj1 (List.Forall_forall P l) Pl).
      * now apply (proj1 (List.Forall_forall _ l) Hy).
Qed.

Lemma jsSort_Forall l : List.Forall P l -> List.Forall P (jsSort gt l).
Proof.
  intros Hl. apply List.Forall_forall. intros z Hz. apply (proj1 (jsSort_In z l)) in Hz.
  now apply (proj1 (List.Forall_forall P l) Hl).
Qed.

Lemma jsSort_sorted l : List.Forall P l -> Sorted.StronglySorted before (jsSort gt l).
Proof.
  induction 1 as [|x l Hx Hl IH]; simpl; [constructor|].
  apply insertSorted_sorted; auto. now apply jsSort_Forall.
Qed.

End SortFacts.

Lemma firstn_In {A : Type} (n : nat) (l : list A) (x : A) : In x (firstn n l) -> In x l.
Proof. intros H. rewrite <- (firstn_skipn n l). apply in_or_app. now left. Qed.

Lemma skipn_In {A : Type} (n : nat) (l : list A) (x : A) : In x (skipn n l) -> In x l.
Proof. intros H. rewrite <- (firstn_skipn n l). apply in_or_app. now right. Qed.

Lemma StronglySorted_split {A : Type} (R : A -> A -> Prop) (l : list A) (n : nat) :
  Sorted.StronglySorted R l ->
  forall x y, In x (firstn n l) -> In y (skipn n l) -> R x y.
Proof.
  intros Hs. revert n. induction Hs as [|a l Hs IH Ha]; intros n x y Hx Hy.
  - now rewrite firstn_nil in Hx.
  - destruct n as [|n]; [contradiction|]. simpl in Hx, Hy. destruct Hx as [<-|Hx].
    + apply (proj1 (List.Forall_forall _ l) Ha). eapply skipn_In; eauto.
    + now apply (IH n).
Qed.

Lemma StronglySorted_map {A B : Type} (f : A -> B) (R : B -> B -> Prop) (l : list A) :
  Sorted.StronglySorted (fun x y => R (f x) (f y)) l -> Sorted.StronglySorted R (map f l).
Proof.
  induction 1 as [|a l Hs IH Ha]; simpl; constructor; auto.
  apply List.Forall_forall. intros y Hy. apply in_map_iff in Hy as (x & <- & Hx).
  now apply (proj1 (List.Forall_forall _ l) Ha).
Qed.

Lemma StronglySorted_firstn {A : Type} (R : A -> A -> Prop) (l : list A) (n : nat) :
  Sorted.StronglySorted R l -> Sorted.StronglySorted R (firstn n l).
Proof.
  intros Hs. revert n. induction Hs as [|a l Hs IH Ha]; intros [|n]; simpl; try constructor; auto.
  apply List.Forall_forall. intros y Hy. apply (proj1 (List.Forall_forall _ l) Ha).
  eapply firstn_In; eauto.
Qed.


(** ** Clusters *)

Section ClusterFacts.
Context {num : Type} {JN : JsNumber num}.
Implicit Types (polls : list (Poll num)) (key : jsstring) (st : ChoiceStats num).

Lemma cluster_stats polls key st :
  In (key, st) (choiceStatsOf polls) ->
  let cl := clusterOf key polls in
  cl <> [] /\ total st = sumOf (map pct cl) /\ count st = length cl
  /\ originalNames st = map choice cl
  /\ displayName st = shortestFirst key (map choice cl).
Proof.
  intros H cl. apply choiceStatsOf_In in H. fold cl in H.
  destruct cl as [|a cl']; [discriminate|]. injection H as <-.
  repeat split; discriminate.
Qed.

Lemma cluster_label polls key c :
  In c (map choice (clusterOf key polls)) -> normalizeChoice c = key.
Proof.
  intros H. apply in_map_iff in H as (a & <- & Ha).
  apply filter_In in Ha as [_ Ha]. now apply strEq_true in Ha.
Qed.

Lemma cluster_label_length polls key c :
  In c (map choice (clusterOf key polls)) -> length key <= length c.
Proof. intros H. rewrite <- (cluster_label polls key c H). apply normalizeChoice_length. Qed.

Lemma displayName_key polls key st : In (key, st) (choiceStatsOf polls) -> displayName st = key.
Proof.
  intros H. destruct (cluster_stats polls key st H) as (_ & _ & _ & _ & ->).
  apply shortestFirst_seed. apply cluster_label_length.
Qed.

Lemma choiceAverages_In polls item :
  In item (choiceAverages polls) ->
  exists st, In (uc_normalized item, st) (choiceStatsOf polls)
    /\ uc_displayName item = displayName st
    /\ uc_average item = ndiv (total st) (nofNat (count st)).
Proof.
  unfold choiceAverages. intros H. apply in_map_iff in H as ([k st] & <- & H).
  exists st. simpl. auto.
Qed.

Lemma uniqueChoices_In polls item :
  In item (uniqueChoices polls) <-> In item (choiceAverages polls).
Proof. apply jsSort_In. Qed.

Lemma calculateChoicesWithColors_In polls colorMap cd :
  In cd (calculateChoicesWithColors polls colorMap) ->
  exists item, In item (firstn 10 (uniqueChoices polls))
    /\ cd_displayName cd = uc_displayName item
    /\ cd_average cd = uc_average item
    /\ cd_color cd = colorOr colorMap (uc_displayName item) GREY.
Proof.
  unfold calculateChoicesWithColors. intros H. apply in_map_iff in H as (item & <- & H).
  exists item. simpl. auto.
Qed.

Lemma uniqueChoice_average polls item :
  In item (uniqueChoices polls) ->
  let cl := clusterOf (uc_normalized item) polls in
  cl <> [] /\ uc_displayName item = uc_normalized item
  /\ uc_average item = ndiv (sumOf (map pct cl)) (nofNat (length cl)).
Proof.
  intros H cl. apply uniqueChoices_In, choiceAverages_In in H as (st & Hst & Hd & Ha).
  destruct (cluster_stats polls _ st Hst) as (Hne & Ht & Hc & _).
  fold cl in Hne, Ht, Hc. rewrite Ha, Hd, Ht, Hc.
  now rewrite (displayName_key polls _ st Hst).
Qed.

Lemma cluster_ranked polls key :
  clusterOf key polls <> [] ->
  exists item, In item (uniqueChoices polls) /\ uc_normalized item = key.
Proof.
  intros Hne. pose proof (choiceStatsOf_lookup polls key) as H.
  destruct (clusterOf key polls) as [|a cl] eqn:E; [contradiction|].
  apply mapGet_Some_In in H.
  eexists. split.
  - apply uniqueChoices_In. unfold choiceAverages. apply in_map_iff.
    eexists. split; [reflexivity|exact H].
  - reflexivity.
Qed.

End ClusterFacts.

(** C2, as stated, fails: a cluster whose only observed label is "Approve."
    is displayed as "Approve", which is not an observed label. *)
Lemma displayName_not_observed :
  exists st : ChoiceStats float,
    In (lit "Approve", st)
       (choiceStatsOf [mkPoll "p2" "approval" "2024-05-08" [("Approve.", 44%float)]])
    /\ originalNames st = [lit "Approve."]
    /\ displayName st = lit "Approve"
    /\ ~ In (displayName st) (originalNames st).
Proof.
  eexists. split; [left; reflexivity|]. simpl.
  split; [reflexivity|]. split; [reflexivity|].
  intros [H|[]]. discriminate H.
Qed.

(** C2, amended. The display name of a cluster is the shortest string among
    its canonical key followed by the observed original labels in scan order,
    the earliest winning ties.  No label is shorter than its canonical key, so
    the display name is the canonical key itself: it is never longer than an
    observed label, and it is an observed label exactly when some observed
    label is already in canonical form. *)
Theorem displayName_shortest_from_key :
  forall (num : Type) (JN : JsNumber num) (polls : list (Poll num))
         (key : jsstring) (st : ChoiceStats num),
    In (key, st) (choiceStatsOf polls) ->
    let labels := map choice (clusterOf key polls) in
    labels <> []
    /\ originalNames st = labels
    /\ displayName st = shortestFirst key labels
    /\ displayName st = key
    /\ (forall c, In c labels -> length (displayName st) <= length c)
    /\ (In (displayName st) labels <-> exists c, In c labels /\ normalizeChoice c = c).
Proof.
  intros num JN polls key st H labels.
  destruct (cluster_stats polls key st H) as (Hne & _ & _ & Ho & Hd).
  pose proof (displayName_key polls key st H) as Hk.
  split. { unfold labels. intros E. apply map_eq_nil in E. contradiction. }
  split; [exact Ho|]. split; [exact Hd|]. split; [exact Hk|]. split.
  - intros c Hc. rewrite Hk. now apply (cluster_label_length polls).
  - rewrite Hk. split.
    + intros Hin. exists key. split; [exact Hin|]. now apply (cluster_label polls key).
    + intros (c & Hc & Hfix). pose proof (cluster_label polls key c Hc) as E.
      rewrite Hfix in E. now subst c.
Qed.

Lemma displayName_shortest_from_key_witness :
  In (lit "Approve", approveStats) (choiceStatsOf approvalPolls)
  /\ displayName approveStats = shortestFirst (lit "Approve") [lit "Approve"; lit "Approve."].
Proof.
  assert (H : In (lit "Approve", approveStats) (choiceStatsOf approvalPolls))
    by (left; reflexivity).
  split; [exact H|].
  exact (proj1 (proj2 (proj2 (displayName_shortest_from_key _ _ _ _ _ H)))).
Defined.

(** C4. Every non-empty cluster has an entry, and the average reported for a
    cluster is the sum of the percentages of its answers divided by their
    number, sample sizes playing no part; the two approval polls average to
    Approve 44.5 and Disapprove 50.5. *)
Theorem average_is_total_over_count :
  (forall (num : Type) (JN : JsNumber num) (polls : list (Poll num)) (key : jsstring),
     clusterOf key polls <> [] ->
     exists item, In item (uniqueChoices polls) /\ uc_normalized item = key)
  /\ (forall (num : Type) (JN : JsNumber num) (polls : list (Poll num)) (item : UniqueChoice num),
     In item (uniqueChoices polls) ->
     let cl := clusterOf (uc_normalized item) polls in
     cl <> [] /\ uc_average item = ndiv (sumOf (map pct cl)) (nofNat (length cl)))
  /\ (forall (num : Type) (JN : JsNumber num) (polls : list (Poll num))
             (colorMap : gmap jsstring jsstring) (cd : ChoiceData num),
        In cd (calculateChoicesWithColors polls colorMap) ->
        let cl := clusterOf (cd_displayName cd) polls in
        cl <> [] /\ cd_average cd = ndiv (sumOf (map pct cl)) (nofNat (length cl)))
  /\ map (fun cd => (cd_displayName cd, cd_average cd))
         (calculateChoicesWithColors approvalPolls approvalColors)
     = [(lit "Disapprove", 50.5%float); (lit "Approve", 44.5%float)].
Proof.
  split; [|split; [|split]].
  - intros num JN polls key. apply cluster_ranked.
  - intros num JN polls item H cl. destruct (uniqueChoice_average polls item H) as (? & _ & ?).
    now split.
  - intros num JN polls colorMap cd H cl.
    apply calculateChoicesWithColors_In in H as (item & Hi & Hd & Ha & _).
    apply firstn_In in Hi. destruct (uniqueChoice_average polls item Hi) as (Hne & Hk & Hv).
    unfold cl. rewrite Hd, Ha, Hk. now split.
  - reflexivity.
Qed.

Lemma average_is_total_over_count_witness :
  In approveItem (uniqueChoices approvalPolls)
  /\ uc_average approveItem
     = ndiv (sumOf (map pct (clusterOf (lit "Approve") approvalPolls)))
            (nofNat (length (clusterOf (lit "Approve") approvalPolls))).
Proof.
  assert (H : In approveItem (uniqueChoices approvalPolls)) by (right; left; reflexivity).
  split; [exact H|].
  exact (proj2 (proj1 (proj2 average_is_total_over_count) _ _ _ _ H)).
Defined.

(** ** Colours *)


Lemma inheritedName_In (name : jsstring) :
  inheritedName name = true <-> In name objectPrototypeNames.
Proof.
  unfold inheritedName. rewrite existsb_exists. split.
  - intros (x & Hx & E). apply strEq_true in E. now subst.
  - intros H. exists name. split; [exact H|]. now apply strEq_true.
Qed.

(** None of the names of [Object.prototype] normalizes to a word of the
    fallback rules. *)
Lemma isRuleWord_own (w : jsstring) :
  isRuleWord (normalizeChoice w) -> inheritedName w = false.
Proof.
  intros H. destruct (inheritedName w) eqn:E; [|reflexivity]. exfalso.
  apply inheritedName_In in E. unfold objectPrototypeNames in E. simpl in E.
  unfold isRuleWord, matchesIgnoringCase in H.
  repeat (destruct E as [E|E]; [subst w; vm_compute in H; intuition discriminate|]).
  exact E.
Qed.

Lemma getProperty_own (colorMap : gmap jsstring jsstring) name s :
  colorMap !! name = Some s -> getProperty colorMap name = Some (VString s).
Proof. unfold getProperty. now intros ->. Qed.

Lemma getProperty_inherited (colorMap : gmap jsstring jsstring) name :
  colorMap !! name = None -> inheritedName name = true ->
  getProperty colorMap name = Some (VInherited name).
Proof. unfold getProperty. now intros -> ->. Qed.

Lemma getProperty_noValue (colorMap : gmap jsstring jsstring) name :
  noValueFor colorMap name ->
  getProperty colorMap name = None \/ getProperty colorMap name = Some (VString []).
Proof. unfold getProperty. intros [-> | [-> ->]]; auto. Qed.

Lemma colorOr_mapped (colorMap : gmap jsstring jsstring) name fallback c r :
  colorMap !! name = Some (c :: r) -> colorOr colorMap name fallback = VString (c :: r).
Proof. intros H. unfold colorOr. now rewrite (getProperty_own _ _ _ H). Qed.

Lemma colorOr_inherited (colorMap : gmap jsstring jsstring) name fallback :
  colorMap !! name = None -> inheritedName name = true ->
  colorOr colorMap name fallback = VInherited name.
Proof. intros H E. unfold colorOr. now rewrite (getProperty_inherited _ _ H E). Qed.

Lemma colorOr_noValue (colorMap : gmap jsstring jsstring) name fallback :
  noValueFor colorMap name -> colorOr colorMap name fallback = VString fallback.
Proof.
  intros H. unfold colorOr. now destruct (getProperty_noValue _ _ H) as [-> | ->].
Qed.



Section WinnerColor.
Context {num : Type} {JN : JsNumber num}.
Implicit Types (colorMap : gmap jsstring jsstring) (poll : Poll num) (w : jsstring).

Lemma getWinnerColor_mapped colorMap poll w c r :
  colorMap !! w = Some (c :: r) -> getWinnerColor colorMap poll w = VString (c :: r).
Proof. intros H. unfold getWinnerColor. now rewrite (getProperty_own _ _ _ H). Qed.

Lemma getWinnerColor_inherited colorMap poll w :
  colorMap !! w = None -> inheritedName w = true ->
  getWinnerColor colorMap poll w = VInherited w.
Proof. intros H E. unfold getWinnerColor. now rewrite (getProperty_inherited _ _ H E). Qed.

Lemma getWinnerColor_noValue colorMap poll w :
  noValueFor colorMap w -> getWinnerColor colorMap poll w = VString (winnerRuleColor poll w).
Proof.
  intros H. unfold getWinnerColor. now destruct (getProperty_noValue _ _ H) as [-> | ->].
Qed.

(** Without a colour of its own, a choice that a rule can match is coloured
    by the rules: the names of [Object.prototype] are not such choices. *)
Lemma getWinnerColor_unmapped colorMap poll w :
  noColorFor colorMap w -> isRuleWord (normalizeChoice w) ->
  getWinnerColor colorMap poll w = VString (winnerRuleColor poll w).
Proof.
  intros Hno Hw. apply getWinnerColor_noValue.
  destruct Hno as [Hno|Hno]; [right|left]; auto using isRuleWord_own.
Qed.

Lemma winnerRuleColor_sentiment poll w :
  matchesIgnoringCase (poll_type poll) (lit "approval")
  \/ matchesIgnoringCase (poll_type poll) (lit "favorability") ->
  ((matchesIgnoringCase (normalizeChoice w) (lit "approve")
    \/ matchesIgnoringCase (normalizeChoice w) (lit "favorable")) ->
   winnerRuleColor poll w = GREEN)
  /\ ((matchesIgnoringCase (normalizeChoice w) (lit "disapprove")
       \/ matchesIgnoringCase (normalizeChoice w) (lit "unfavorable")) ->
      winnerRuleColor poll w = ORANGE).
Proof.
  unfold winnerRuleColor, matchesIgnoringCase.
  intros [Ht|Ht]; (split; intros [Hw|Hw]); rewrite Ht, Hw; reflexivity.
Qed.

Lemma winnerRuleColor_ballot poll w :
  matchesIgnoringCase (poll_type poll) (lit "generic-ballot") ->
  (matchesIgnoringCase (normalizeChoice w) (lit "dem") -> winnerRuleColor poll w = BLUE)
  /\ (matchesIgnoringCase (normalizeChoice w) (lit "rep") -> winnerRuleColor poll w = RED).
Proof.
  unfold winnerRuleColor, matchesIgnoringCase.
  intros Ht; split; intros Hw; rewrite Ht, Hw; reflexivity.
Qed.




(** The rules depend on the choice through its canonical key only. *)
Lemma winnerRuleColor_by_key poll w w' :
  normalizeChoice w = normalizeChoice w' -> winnerRuleColor poll w = winnerRuleColor poll w'.
Proof. intros H. unfold winnerRuleColor. now rewrite H. Qed.

End WinnerColor.

(** C3, as stated, fails: the colour map is consulted first, so an approval
    poll's "Approve" is coloured as the map says. *)
Lemma getWinnerColor_prefers_colorMap :
  matchesIgnoringCase (poll_type firstApprovalPoll) (lit "approval")
  /\ matchesIgnoringCase (normalizeChoice (lit "Approve")) (lit "approve")
  /\ getWinnerColor overridingColors firstApprovalPoll (lit "Approve") = VString (lit "#123456")
  /\ getWinnerColor overridingColors firstApprovalPoll (lit "Approve") <> VString GREEN.
Proof.
  assert (E : getWinnerColor overridingColors firstApprovalPoll (lit "Approve")
              = VString (lit "#123456")).
  { apply getWinnerColor_mapped. apply lookup_insert_eq. }
  split; [reflexivity|]. split; [reflexivity|]. split; [exact E|]. rewrite E. discriminate.
Qed.

(** C3, amended. A non-empty colour that the colour map holds for the choice
    is the colour returned.  When the map holds none: in a poll whose type is
    'approval' or 'favorability' (in any case) a choice whose normalized key
    matches 'approve' or 'favorable' is green and one matching 'disapprove'
    or 'unfavorable' is orange; in a 'generic-ballot' poll a choice matching
    'dem' is blue and one matching 'rep' is red. *)
Theorem getWinnerColor_rules :
  forall (num : Type) (JN : JsNumber num) (colorMap : gmap jsstring jsstring)
         (poll : Poll num) (winnerChoice : jsstring),
    (forall c r, colorMap !! winnerChoice = Some (c :: r) ->
                 getWinnerColor colorMap poll winnerChoice = VString (c :: r))
    /\ (noColorFor colorMap winnerChoice ->
        let key := normalizeChoice winnerChoice in
        (matchesIgnoringCase (poll_type poll) (lit "approval")
         \/ matchesIgnoringCase (poll_type poll) (lit "favorability") ->
         (matchesIgnoringCase key (lit "approve") \/ matchesIgnoringCase key (lit "favorable") ->
          getWinnerColor colorMap poll winnerChoice = VString GREEN)
         /\ (matchesIgnoringCase key (lit "disapprove")
             \/ matchesIgnoringCase key (lit "unfavorable") ->
             getWinnerColor colorMap poll winnerChoice = VString ORANGE))
        /\ (matchesIgnoringCase (poll_type poll) (lit "generic-ballot") ->
            (matchesIgnoringCase key (lit "dem") ->
             getWinnerColor colorMap poll winnerChoice = VString BLUE)
            /\ (matchesIgnoringCase key (lit "rep") ->
                getWinnerColor colorMap poll winnerChoice = VString RED))).
Proof.
  intros num JN colorMap poll w. split; [apply getWinnerColor_mapped|].
  intros Hno key. split.
  - intros Ht. split; intros Hw.
    + rewrite (getWinnerColor_unmapped colorMap poll w Hno) by (unfold isRuleWord; tauto).
      f_equal. now apply winnerRuleColor_sentiment.
    + rewrite (getWinnerColor_unmapped colorMap poll w Hno) by (unfold isRuleWord; tauto).
      f_equal. now apply winnerRuleColor_sentiment.
  - intros Ht. split; intros Hw.
    + rewrite (getWinnerColor_unmapped colorMap poll w Hno) by (unfold isRuleWord; tauto).
      f_equal. now apply winnerRuleColor_ballot.
    + rewrite (getWinnerColor_unmapped colorMap poll w Hno) by (unfold isRuleWord; tauto).
      f_equal. now apply winnerRuleColor_ballot.
Qed.

Lemma getWinnerColor_rules_witness :
  noColorFor ∅ (lit "APPROVE.") /\ noColorFor ∅ (lit "REP")
  /\ getWinnerColor ∅ shoutedApprovalPoll (lit "APPROVE.") = VString GREEN
  /\ getWinnerColor ∅ ballotPoll (lit "REP") = VString RED
  /\ getWinnerColor overridingColors firstApprovalPoll (lit "Approve") = VString (lit "#123456").
Proof.
  assert (H1 : noColorFor ∅ (lit "APPROVE.")) by (left; apply lookup_empty).
  assert (H2 : noColorFor ∅ (lit "REP")) by (left; apply lookup_empty).
  split; [exact H1|]. split; [exact H2|]. split; [|split].
  - apply (proj1 (proj1 (proj2 (getWinnerColor_rules _ _ ∅ shoutedApprovalPoll _) H1)
                        (or_introl eq_refl))).
    left. reflexivity.
  - apply (proj2 (proj2 (proj2 (getWinnerColor_rules _ _ ∅ ballotPoll _) H2) eq_refl)).
    reflexivity.
  - apply (proj1 (getWinnerColor_rules _ _ overridingColors firstApprovalPoll (lit "Approve"))
                 "#"%char (lit "123456")).
    apply lookup_insert_eq.
Defined.




(** ** The ranked summary *)

Section RankFacts.
Context {num : Type} {JN : JsNumber num}.

Lemma consistentOn_spec (vals : list num) :
  consistentOn vals = true ->
  (forall a b, In a vals -> In b vals -> belowN a b = true -> belowN b a = false)
  /\ (forall a b c, In a vals -> In b vals -> In c vals ->
        belowN a b = false -> belowN b c = false -> belowN a c = false).
Proof.
  unfold consistentOn. intros H.
  assert (K : forall a b, In a vals -> In b vals ->
            implb (belowN a b) (negb (belowN b a)) = true
            /\ forall c, In c vals ->
                 implb (negb (belowN a b) && negb (belowN b c)) (negb (belowN a c)) = true).
  { intros a b Ha Hb.
    apply (proj1 (List.forallb_forall _ _) H) in Ha.
    apply (proj1 (List.forallb_forall _ _) Ha) in Hb.
    apply andb_true_iff in Hb as [H1 H2]. split; [exact H1|].
    intros c Hc. now apply (proj1 (List.forallb_forall _ _) H2) in Hc. }
  split.
  - intros a b Ha Hb E. destruct (K a b Ha Hb) as [H1 _]. rewrite E in H1.
    simpl in H1. now apply negb_true_iff in H1.
  - intros a b c Ha Hb Hc E1 E2. destruct (K a b Ha Hb) as [_ H2].
    specialize (H2 c Hc). rewrite E1, E2 in H2. simpl in H2. now apply negb_true_iff in H2.
Qed.

Lemma uniqueChoices_sorted (polls : list (Poll num)) :
  consistentOn (map uc_average (choiceAverages polls)) = true ->
  Sorted.StronglySorted (fun a b => belowN (uc_average a) (uc_average b) = false)
    (uniqueChoices polls).
Proof.
  intros H. apply consistentOn_spec in H as [Hasym Htrans].
  unfold uniqueChoices.
  apply (jsSort_sorted byAverageDesc (fun u => In u (choiceAverages polls))).
  - intros x y Hx Hy. apply Hasym; now apply in_map.
  - intros x y z Hx Hy Hz. apply Htrans; now apply in_map.
  - now apply List.Forall_forall.
Qed.

Lemma calculateChoicesWithColors_fields (polls : list (Poll num)) colorMap :
  map (fun c => (cd_displayName c, cd_average c)) (calculateChoicesWithColors polls colorMap)
  = map (fun u => (uc_displayName u, uc_average u)) (firstn 10 (uniqueChoices polls)).
Proof. unfold calculateChoicesWithColors. rewrite map_map. reflexivity. Qed.

Lemma calculateChoicesWithColors_length (polls : list (Poll num)) colorMap :
  length (calculateChoicesWithColors polls colorMap)
  = Nat.min 10 (length (choiceStatsOf polls)).
Proof.
  unfold calculateChoicesWithColors, uniqueChoices, choiceAverages.
  now rewrite length_map, length_firstn, jsSort_length, length_map.
Qed.

End RankFacts.

(** On exact rationals the comparator is consistent whatever the values. *)
Lemma belowN_Q (a b : Q) : belowN a b = true <-> (a < b)%Q.
Proof.
  unfold belowN, Qlt. simpl. rewrite Z.ltb_lt. lia.
Qed.

Lemma belowN_Q_false (a b : Q) : belowN a b = false <-> (b <= a)%Q.
Proof.
  rewrite <- not_true_iff_false, belowN_Q. split; [apply Qnot_lt_le|apply Qle_not_lt].
Qed.

Lemma consistentOn_Q (vals : list Q) : consistentOn vals = true.
Proof.
  unfold consistentOn.
  apply List.forallb_forall. intros a _. apply List.forallb_forall. intros b _.
  apply andb_true_iff. split.
  - destruct (belowN a b) eqn:E1; [|reflexivity]. simpl. apply negb_true_iff.
    apply belowN_Q_false. apply belowN_Q in E1. now apply Qlt_le_weak.
  - apply List.forallb_forall. intros c _.
    destruct (belowN a b) eqn:E1; [reflexivity|].
    destruct (belowN b c) eqn:E2; [reflexivity|]. simpl. apply negb_true_iff.
    apply belowN_Q_false in E1, E2. apply belowN_Q_false. now apply Qle_trans with b.
Qed.

(** C9. calculateChoicesWithColors returns at most ten entries: the first
    ten of the clusters ranked by average in descending order, so that no
    dropped cluster has a higher average than a kept one; of the twelve
    choices of one crowded poll the two lowest are dropped.  The ranking is
    that of a comparator consistent on the averages at hand, as it is on
    all exact rationals. *)
Theorem calculateChoicesWithColors_top10 :
  (forall (num : Type) (JN : JsNumber num) (polls : list (Poll num))
          (colorMap : gmap jsstring jsstring),
     consistentOn (map uc_average (choiceAverages polls)) = true ->
     let ranked := uniqueChoices polls in
     let out := calculateChoicesWithColors polls colorMap in
     length out = Nat.min 10 (length (choiceStatsOf polls))
     /\ length out <= 10
     /\ Permutation ranked (choiceAverages polls)
     /\ map (fun c => (cd_displayName c, cd_average c)) out
        = map (fun u => (uc_displayName u, uc_average u)) (firstn 10 ranked)
     /\ Sorted.StronglySorted (fun x y => belowN x y = false) (map cd_average out)
     /\ (forall kept dropped,
           In kept (firstn 10 ranked) -> In dropped (skipn 10 ranked) ->
           belowN (uc_average kept) (uc_average dropped) = false))
  /\ (forall polls : list (Poll Q),
        consistentOn (map uc_average (choiceAverages polls)) = true)
  /\ length (choiceStatsOf crowdedPoll) = 12
  /\ map cd_displayName (calculateChoicesWithColors crowdedPoll ∅)
     = map lit ["B"; "G"; "I"; "E"; "K"; "C"; "L"; "A"; "J"; "F"]%string
  /\ map uc_displayName (skipn 10 (uniqueChoices crowdedPoll)) = map lit ["H"; "D"]%string.
Proof.
  split; [|split; [intros polls; apply consistentOn_Q|repeat split; reflexivity]].
  intros num JN polls colorMap H ranked out.
  pose proof (uniqueChoices_sorted polls H) as Hs. fold ranked in Hs.
  split; [apply calculateChoicesWithColors_length|].
  split. { unfold out. rewrite calculateChoicesWithColors_length. lia. }
  split; [apply jsSort_perm|].
  split; [apply calculateChoicesWithColors_fields|].
  split.
  - unfold out, calculateChoicesWithColors. rewrite map_map. cbn [cd_average].
    apply StronglySorted_map. now apply StronglySorted_firstn.
  - intros kept dropped Hk Hd.
    exact (StronglySorted_split _ ranked 10 Hs kept dropped Hk Hd).
Qed.

Lemma calculateChoicesWithColors_top10_witness :
  consistentOn (map uc_average (choiceAverages crowdedPoll)) = true
  /\ length (calculateChoicesWithColors crowdedPoll ∅) <= 10
  /\ Sorted.StronglySorted (fun x y : float => belowN x y = false)
       (map cd_average (calculateChoicesWithColors crowdedPoll ∅)).
Proof.
  assert (H : consistentOn (map uc_average (choiceAverages crowdedPoll)) = true)
    by (vm_compute; reflexivity).
  split; [exact H|].
  pose (T := proj1 calculateChoicesWithColors_top10 _ _ crowdedPoll ∅ H).
  split; [exact (proj1 (proj2 T))|exact (proj1 (proj2 (proj2 (proj2 (proj2 T)))))].
Defined.

(** ** Polls by end date *)

Lemma StronglySorted_weaken {A : Type} (P : A -> Prop) (R R' : A -> A -> Prop) (l : list A) :
  (forall x y, P x -> P y -> R x y -> R' x y) ->
  List.Forall P l -> Sorted.StronglySorted R l -> Sorted.StronglySorted R' l.
Proof.
  intros HR HP Hs. induction Hs as [|a l Hs IH Ha]; [constructor|].
  apply List.Forall_cons_iff in HP as [Pa Pl]. constructor; [now apply IH|].
  apply List.Forall_forall. intros y Hy. apply HR; auto.
  - now apply (proj1 (List.Forall_forall P l) Pl).
  - now apply (proj1 (List.Forall_forall _ l) Ha).
Qed.

Section EndDateFacts.
Context {num : Type} (getTime : jsstring -> option Z).
Implicit Types (p a b : Poll num) (polls : list (Poll num)).
Local Abbreviation validEndDate := (validEndDate getTime).

Lemma byEndDateDesc_valid a b :
  validEndDate a -> validEndDate b ->
  (byEndDateDesc getTime a b = false <-> endsNoEarlier getTime a b).
Proof.
  unfold validEndDate, byEndDateDesc, endsNoEarlier.
  destruct (getTime (end_date a)) as [ta|], (getTime (end_date b)) as [tb|]; try tauto.
  intros _ _. rewrite Z.ltb_ge. lia.
Qed.

Lemma sortedPolls_sorted polls :
  List.Forall validEndDate polls ->
  Sorted.StronglySorted (endsNoEarlier getTime) (sortedPolls getTime polls).
Proof.
  intros Hv. unfold sortedPolls.
  apply (StronglySorted_weaken validEndDate (fun a b => byEndDateDesc getTime a b = false)).
  - intros x y Hx Hy. now apply byEndDateDesc_valid.
  - now apply jsSort_Forall.
  - apply (jsSort_sorted _ validEndDate); [| |exact Hv].
    + intros x y Hx Hy. unfold validEndDate, byEndDateDesc in *.
      destruct (getTime (end_date x)), (getTime (end_date y)); try tauto.
      rewrite Z.ltb_lt, Z.ltb_ge. lia.
    + intros x y z Hx Hy Hz. unfold validEndDate, byEndDateDesc in *.
      destruct (getTime (end_date x)), (getTime (end_date y)), (getTime (end_date z));
        try tauto.
      rewrite !Z.ltb_ge. lia.
Qed.

End EndDateFacts.

(** C6. The polls of a division, once sorted by handleSearch, are the same
    polls in descending order of end date, every end date being a valid date;
    the end dates 2024-01-01, 2024-03-01, 2024-02-01 come out as 2024-03-01,
    2024-02-01, 2024-01-01. *)
Theorem sortedPolls_descending :
  (forall (num : Type) (getTime : jsstring -> option Z) (polls : list (Poll num)),
     (forall p, In p polls -> getTime (end_date p) <> None) ->
     Permutation (sortedPolls getTime polls) polls
     /\ Sorted.StronglySorted (endsNoEarlier getTime) (sortedPolls getTime polls))
  /\ map end_date datedPolls = map lit ["2024-01-01"; "2024-03-01"; "2024-02-01"]%string
  /\ map end_date (sortedPolls isoDateTime datedPolls)
     = map lit ["2024-03-01"; "2024-02-01"; "2024-01-01"]%string.
Proof.
  split; [|split; reflexivity].
  intros num getTime polls Hv. split; [apply jsSort_perm|].
  apply sortedPolls_sorted. now apply List.Forall_forall.
Qed.

Lemma sortedPolls_descending_witness :
  (forall p, In p datedPolls -> isoDateTime (end_date p) <> None)
  /\ Sorted.StronglySorted (endsNoEarlier isoDateTime) (sortedPolls isoDateTime datedPolls).
Proof.
  assert (H : forall p, In p datedPolls -> isoDateTime (end_date p) <> None).
  { intros p [<-|[<-|[<-|[]]]]; discriminate. }
  split; [exact H|].
  exact (proj2 (proj1 sortedPolls_descending _ isoDateTime datedPolls H)).
Defined.

(** ** Division keys *)

Lemma split_nonempty sep s : split sep s <> [].
Proof.
  destruct s as [|c r]; simpl; [discriminate|].
  destruct (Ascii.eqb c sep); [discriminate|]. destruct (split sep r); discriminate.
Qed.

Lemma join_split_hyphen s :
  join (lit "-") (split UNDERSCORE s) = replaceEach UNDERSCORE HYPHEN s.
Proof.
  induction s as [|c r IH]; [reflexivity|].
  cbn [split replaceEach map]. fold (replaceEach UNDERSCORE HYPHEN r).
  destruct (Ascii.eqb c UNDERSCORE).
  - cbn [join]. pose proof (split_nonempty UNDERSCORE r) as Hne.
    destruct (split UNDERSCORE r) as [|seg segs] eqn:E; [contradiction|].
    rewrite <- IH. reflexivity.
  - pose proof (split_nonempty UNDERSCORE r) as Hne.
    destruct (split UNDERSCORE r) as [|seg segs] eqn:E; [contradiction|].
    rewrite <- IH. cbn [join]. now destruct segs.
Qed.

Lemma split_first s :
  exists parts,
    split UNDERSCORE s = beforeFirst UNDERSCORE s :: parts
    /\ join (lit "-") parts = replaceEach UNDERSCORE HYPHEN (afterFirst UNDERSCORE s).
Proof.
  induction s as [|c r (parts & Hs & Hj)]; [now exists []|].
  cbn [split beforeFirst afterFirst]. destruct (Ascii.eqb c UNDERSCORE).
  - exists (split UNDERSCORE r). split; [reflexivity|apply join_split_hyphen].
  - rewrite Hs. now exists parts.
Qed.

Lemma parseDivisionKey_eq key :
  parseDivisionKey key
  = (beforeFirst UNDERSCORE key, replaceEach UNDERSCORE HYPHEN (afterFirst UNDERSCORE key)).
Proof.
  unfold parseDivisionKey. destruct (split_first key) as (parts & -> & ->). reflexivity.
Qed.

Lemma split_segments s :
  List.Forall (fun seg => ~ In UNDERSCORE seg) (split UNDERSCORE s)
  /\ join [UNDERSCORE] (split UNDERSCORE s) = s.
Proof.
  induction s as [|c r [IH1 IH2]]; [split; [repeat constructor; tauto|reflexivity]|].
  cbn [split]. pose proof (split_nonempty UNDERSCORE r) as Hne.
  destruct (Ascii.eqb_spec c UNDERSCORE) as [->|Hc].
  - split; [constructor; [tauto|exact IH1]|].
    cbn [join]. destruct (split UNDERSCORE r) eqn:E; [contradiction|]. now rewrite IH2.
  - destruct (split UNDERSCORE r) as [|seg segs] eqn:E; [contradiction|].
    apply List.Forall_cons_iff in IH1 as [Hseg Hsegs]. split.
    + constructor; [|exact Hsegs]. intros [H|H]; [now apply Hc|now apply Hseg].
    + cbn [join] in *. rewrite <- IH2. now destruct segs.
Qed.

Lemma beforeFirst_app a b : ~ In UNDERSCORE a -> beforeFirst UNDERSCORE (a ++ UNDERSCORE :: b) = a.
Proof.
  induction a as [|c a IH]; intros H; simpl; [reflexivity|].
  destruct (Ascii.eqb_spec c UNDERSCORE) as [->|Hc]; [exfalso; apply H; now left|].
  rewrite IH; [reflexivity|]. intros Hin. apply H. now right.
Qed.

Lemma afterFirst_app a b : ~ In UNDERSCORE a -> afterFirst UNDERSCORE (a ++ UNDERSCORE :: b) = b.
Proof.
  induction a as [|c a IH]; intros H; simpl; [reflexivity|].
  destruct (Ascii.eqb_spec c UNDERSCORE) as [->|Hc]; [exfalso; apply H; now left|].
  apply IH. intros Hin. apply H. now right.
Qed.

(** C10. The subject parsed from a division key is the part before the first
    underscore, and the poll type is the remaining underscore-separated
    segments joined with hyphens; a subject that itself contains an underscore
    is therefore cut at that underscore and its remainder becomes the front of
    the poll type. *)
Theorem parseDivisionKey_first_underscore :
  (forall key : jsstring,
     parseDivisionKey key
     = (beforeFirst UNDERSCORE key, replaceEach UNDERSCORE HYPHEN (afterFirst UNDERSCORE key))
     /\ parseDivisionKey key
        = (hd [] (split UNDERSCORE key), join (lit "-") (tl (split UNDERSCORE key)))
     /\ List.Forall (fun seg => ~ In UNDERSCORE seg) (split UNDERSCORE key)
     /\ join [UNDERSCORE] (split UNDERSCORE key) = key)
  /\ (forall subject1 subject2 pollType : jsstring,
        ~ In UNDERSCORE subject1 ->
        parseDivisionKey ((subject1 ++ UNDERSCORE :: subject2) ++ UNDERSCORE :: pollType)
        = (subject1,
           replaceEach UNDERSCORE HYPHEN subject2 ++ HYPHEN :: replaceEach UNDERSCORE HYPHEN pollType))
  /\ parseDivisionKey (lit "Biden_approval") = (lit "Biden", lit "approval")
  /\ parseDivisionKey (lit "RFK_Jr_approval") = (lit "RFK", lit "Jr-approval").
Proof.
  split; [|split; [|split; reflexivity]].
  - intros key. split; [apply parseDivisionKey_eq|]. split; [|apply split_segments].
    unfold parseDivisionKey. pose proof (split_nonempty UNDERSCORE key).
    now destruct (split UNDERSCORE key).
  - intros s1 s2 t H. rewrite parseDivisionKey_eq, <- app_assoc.
    change ((UNDERSCORE :: s2) ++ UNDERSCORE :: t) with (UNDERSCORE :: (s2 ++ UNDERSCORE :: t)).
    rewrite beforeFirst_app, afterFirst_app by assumption.
    unfold replaceEach. rewrite map_app. reflexivity.
Qed.

Lemma parseDivisionKey_first_underscore_witness :
  ~ In UNDERSCORE (lit "New")
  /\ parseDivisionKey (lit "New_York_general_election") = (lit "New", lit "York-general-election").
Proof.
  assert (H : ~ In UNDERSCORE (lit "New")).
  { intros [H|[H|[H|[]]]]; discriminate H. }
  split; [exact H|].
  exact (proj1 (proj2 parseDivisionKey_first_underscore) (lit "New") (lit "York")
               (lit "general_election") H).
Defined.

(** ** The party resolver *)

Lemma resolverInv_start : resolverInv resolverStart.
Proof.
  intros name. unfold resolverStart, lookupsFor. simpl. rewrite !lookup_empty.
  split; [now left|]. split; [|tauto].
  now rewrite bool_decide_eq_true_2.
Qed.

Lemma resolverInv_step s e : resolverInv s -> resolverInv (resolverStep s e).
Proof.
  intros Hinv. destruct e as [caller n|n party]; simpl.
  - destruct (cache s !! n) as [p|] eqn:Ec.
    + intros name. destruct (Hinv name) as (H1 & H2 & H3).
      split; [exact H1|]. split; [exact H2|]. simpl.
      intros c q [[= -> <- <-]|Hin]; [exact Ec|]. now apply (H3 c).
    + destruct (inflight s !! n) as [ws|] eqn:Ei.
      * intros name. destruct (Hinv name) as (H1 & H2 & H3). simpl.
        destruct (decide (n = name)) as [->|Hne].
        -- rewrite lookup_insert_eq. split; [now left|]. split; [|exact H3].
           unfold lookupsFor in *. simpl in *. rewrite H2.
           repeat case_bool_decide; intuition congruence.
        -- rewrite lookup_insert_ne by exact Hne. auto.
      * intros name. destruct (Hinv name) as (H1 & H2 & H3). simpl.
        unfold lookupsFor in *. cbn [lookups List.filter] in *.
        destruct (decide (n = name)) as [->|Hne].
        -- rewrite lookup_insert_eq, strEq_refl. split; [now left|]. split; [|exact H3].
           cbn [length]. rewrite H2.
           repeat case_bool_decide; intuition congruence.
        -- rewrite lookup_insert_ne by exact Hne.
           apply strEq_false in Hne. rewrite Hne. auto.
  - destruct (inflight s !! n) as [ws|] eqn:Ei; [|exact Hinv].
    assert (Ec : cache s !! n = None).
    { destruct (Hinv n) as ([?|?] & _); congruence. }
    intros name. destruct (Hinv name) as (H1 & H2 & H3). simpl.
    destruct (decide (n = name)) as [->|Hne].
    + rewrite lookup_insert_eq, lookup_delete_eq. split; [now right|]. split.
      * unfold lookupsFor in *. simpl in *. rewrite H2.
        repeat case_bool_decide; intuition congruence.
      * intros c q Hin. apply in_app_or in Hin as [Hin|Hin].
        -- apply in_map_iff in Hin as (c' & [= _ <-] & _). reflexivity.
        -- apply H3 in Hin. congruence.
    + rewrite lookup_insert_ne, lookup_delete_ne by exact Hne.
      split; [exact H1|]. split; [exact H2|].
      intros c q Hin. apply in_app_or in Hin as [Hin|Hin].
      * apply in_map_iff in Hin as (c' & [= _ E _] & _). contradiction.
      * now apply (H3 c).
Qed.

Lemma resolverRun_snoc s events e :
  resolverRun s (events ++ [e]) = resolverStep (resolverRun s events) e.
Proof. unfold resolverRun. now rewrite fold_left_app. Qed.

Lemma resolverInv_run s events : resolverInv s -> resolverInv (resolverRun s events).
Proof.
  intros H. induction events as [|e events IH] using rev_ind; [exact H|].
  rewrite resolverRun_snoc. now apply resolverInv_step.
Qed.

(** A caller that has entered [resolve(name)] is awaiting the outstanding
    lookup or has been answered. *)
Lemma resolver_progress s0 events name caller :
  resolverInv s0 ->
  In (Call caller name) events ->
  let s := resolverRun s0 events in
  (exists waiting, inflight s !! name = Some waiting /\ In caller waiting)
  \/ (exists party, In (caller, name, party) (answered s)).
Proof.
  intros Hinv. induction events as [|e events IH] using rev_ind; [contradiction|].
  intros Hin. rewrite resolverRun_snoc.
  pose proof (resolverInv_run s0 events Hinv) as Hs.
  set (s := resolverRun s0 events) in *.
  apply in_app_or in Hin as [Hin|[->|[]]].
  - specialize (IH Hin). cbv zeta in IH.
    destruct IH as [(ws & Hws & Hc)|(p & Hp)].
    + destruct e as [c' n|n party]; simpl.
      * destruct (cache s !! n) eqn:Ec; [left; now exists ws|].
        destruct (decide (n = name)) as [->|Hne].
        -- rewrite Hws. simpl. rewrite lookup_insert_eq. left.
           exists (ws ++ [c']). split; [reflexivity|]. apply in_or_app. now left.
        -- left. exists ws. destruct (inflight s !! n); simpl;
             now rewrite lookup_insert_ne by exact Hne.
      * destruct (decide (n = name)) as [->|Hne].
        -- rewrite Hws. simpl. right. exists party. apply in_or_app. left.
           apply in_map_iff. now exists caller.
        -- destruct (inflight s !! n); simpl; left; exists ws;
             [now rewrite lookup_delete_ne by exact Hne|now split].
    + right. exists p. destruct e as [c' n|n party]; simpl.
      * destruct (cache s !! n); simpl; [now right|].
        now destruct (inflight s !! n).
      * destruct (inflight s !! n); simpl; [|exact Hp]. apply in_or_app. now right.
  - simpl. destruct (cache s !! name) as [p|] eqn:Ec.
    + right. exists p. now left.
    + left. destruct (inflight s !! name) as [ws|]; simpl; rewrite lookup_insert_eq.
      * exists (ws ++ [caller]). split; [reflexivity|]. apply in_or_app. right. now left.
      * exists [caller]. split; [reflexivity|now left].
Qed.

(** Once some caller has asked for [name], it is cached or being looked up. *)
Lemma resolver_touched s0 events name caller :
  resolverInv s0 ->
  In (Call caller name) events ->
  let s := resolverRun s0 events in
  ~ (cache s !! name = None /\ inflight s !! name = None).
Proof.
  intros Hinv Hin s [Hc Hi].
  destruct (resolver_progress s0 events name caller Hinv Hin) as [(ws & Hws & _)|(p & Hp)].
  - fold s in Hws. congruence.
  - fold s in Hp. destruct (resolverInv_run s0 events Hinv name) as (_ & _ & H3).
    apply H3 in Hp. fold s in Hp. congruence.
Qed.

(** C7. For a name that is neither cached nor being looked up, any
    interleaving of resolve calls and lookup completions issues exactly one
    external lookup for that name as soon as some caller asks for it, every
    caller answered for that name receives the same party, and once no lookup
    is outstanding every caller has been answered with the cached party. *)
Theorem resolver_single_flight :
  (forall (s0 : ResolverState) (events : list ResolverEvent) (name : jsstring),
     resolverInv s0 -> cache s0 !! name = None -> inflight s0 !! name = None ->
     let s := resolverRun s0 events in
     lookupsFor name s0 = 0
     /\ ((exists caller, In (Call caller name) events) -> lookupsFor name s = 1)
     /\ (forall c1 c2 p1 p2,
           In (c1, name, p1) (answered s) -> In (c2, name, p2) (answered s) -> p1 = p2)
     /\ (inflight s !! name = None ->
         forall caller, In (Call caller name) events ->
         exists party, In (caller, name, party) (answered s) /\ cache s !! name = Some party))
  /\ resolverInv resolverStart
  /\ lookupsFor (lit "Jane Roe") (resolverRun resolverStart threeCallers) = 1
  /\ answered (resolverRun resolverStart threeCallers)
     = [ (7, lit "John Doe", Unknown); (1, lit "Jane Roe", Independent);
         (2, lit "Jane Roe", Independent); (3, lit "Jane Roe", Independent) ].
Proof.
  split; [|split; [exact resolverInv_start|split; reflexivity]].
  intros s0 events name Hinv Hc Hi s.
  pose proof (resolverInv_run s0 events Hinv name) as (_ & H2 & H3). fold s in H2, H3.
  split.
  { destruct (Hinv name) as (_ & H & _). rewrite H. now rewrite bool_decide_eq_true_2. }
  split.
  { intros [caller Hin]. rewrite H2.
    rewrite bool_decide_eq_false_2; [reflexivity|].
    exact (resolver_touched s0 events name caller Hinv Hin). }
  split.
  { intros c1 c2 p1 p2 Ha Hb. apply H3 in Ha, Hb. congruence. }
  intros Hq caller Hin.
  destruct (resolver_progress s0 events name caller Hinv Hin) as [(ws & Hws & _)|(p & Hp)].
  - fold s in Hws. congruence.
  - exists p. split; [exact Hp|]. exact (H3 caller p Hp).
Qed.

Lemma resolver_single_flight_witness :
  resolverInv resolverStart
  /\ cache resolverStart !! lit "Jane Roe" = None
  /\ inflight resolverStart !! lit "Jane Roe" = None
  /\ (exists caller, In (Call caller (lit "Jane Roe")) threeCallers)
  /\ lookupsFor (lit "Jane Roe") (resolverRun resolverStart threeCallers) = 1.
Proof.
  assert (H1 : cache resolverStart !! lit "Jane Roe" = None) by apply lookup_empty.
  assert (H2 : inflight resolverStart !! lit "Jane Roe" = None) by apply lookup_empty.
  assert (H3 : exists caller, In (Call caller (lit "Jane Roe")) threeCallers)
    by (exists 1; left; reflexivity).
  split; [exact resolverInv_start|]. split; [exact H1|]. split; [exact H2|].
  split; [exact H3|].
  exact (proj1 (proj2 (proj1 resolver_single_flight resolverStart threeCallers
                             (lit "Jane Roe") resolverInv_start H1 H2)) H3).
Defined.

(** * Further properties of the sources *)

(** ** The canonical form reached by normalizeChoice *)

Lemma trimStart_startsClean s : startsClean (trimStart s) = true.
Proof.
  induction s as [|c s IH]; [reflexivity|].
  simpl. destruct (isWhiteSpace c) eqn:E; [exact IH|]. simpl. now rewrite E.
Qed.

Lemma trimStart_clean s : startsClean s = true -> trimStart s = s.
Proof. destruct s as [|c s]; [reflexivity|]. simpl. now destruct (isWhiteSpace c). Qed.

Lemma trimEnd_endsClean s : endsClean (trimEnd s) = true.
Proof.
  induction s as [|c s IH]; [reflexivity|].
  rewrite trimEnd_cons. destruct (trimEnd s) as [|d t].
  - destruct (isWhiteSpace c) eqn:E; [reflexivity|]. simpl. now rewrite E.
  - exact IH.
Qed.

Lemma trimEnd_clean s : endsClean s = true -> trimEnd s = s.
Proof.
  induction s as [|c s IH]; [reflexivity|].
  intros H. rewrite trimEnd_cons. destruct s as [|d s'].
  - simpl in *. now destruct (isWhiteSpace c).
  - rewrite (IH H). reflexivity.
Qed.

Lemma trimEnd_startsClean s : startsClean s = true -> startsClean (trimEnd s) = true.
Proof.
  destruct s as [|c s]; [reflexivity|]. simpl. intros H.
  rewrite trimEnd_cons. destruct (trimEnd s); [|exact H].
  apply negb_true_iff in H. rewrite H. simpl. now rewrite H.
Qed.

Lemma replaceWsRuns_true_head r :
  endsClean r = true -> r <> [] ->
  exists d t, replaceWsRuns true r = d :: t /\ isWhiteSpace d = false.
Proof.
  induction r as [|c r IH]; [congruence|]. intros He _.
  simpl. destruct (isWhiteSpace c) eqn:E.
  - destruct r as [|c' r']; [simpl in He; now rewrite E in He|].
    apply IH; [exact He|discriminate].
  - now exists c, (replaceWsRuns false r).
Qed.

Lemma replaceWsRuns_singleSpaced b s :
  endsClean s = true -> singleSpaced (replaceWsRuns b s) = true.
Proof.
  revert b. induction s as [|c s IH]; intros b He; [reflexivity|].
  assert (Hs : s <> [] -> endsClean s = true) by (destruct s; [congruence|auto]).
  simpl. destruct (isWhiteSpace c) eqn:E.
  - assert (Hne : s <> []) by (destruct s; [simpl in He; now rewrite E in He|discriminate]).
    destruct b; [now apply IH, Hs|].
    destruct (replaceWsRuns_true_head s (Hs Hne) Hne) as (d & t & Hd & Hw).
    cbn [singleSpaced]. rewrite isWhiteSpace_SPACE, Ascii.eqb_refl, Hd, Hw.
    rewrite <- Hd. now apply IH, Hs.
  - cbn [singleSpaced]. rewrite E. destruct s as [|c' s']; [reflexivity|].
    apply IH, Hs. discriminate.
Qed.

Lemma replaceWsRuns_startsClean s :
  startsClean s = true -> startsClean (replaceWsRuns false s) = true.
Proof.
  destruct s as [|c s]; [reflexivity|]. simpl. intros H.
  apply negb_true_iff in H. rewrite H. simpl. now rewrite H.
Qed.

Lemma replaceWsRuns_clean s : singleSpaced s = true -> replaceWsRuns false s = s.
Proof.
  induction s as [|c s IH]; [reflexivity|].
  cbn [singleSpaced replaceWsRuns]. intros H. apply andb_true_iff in H as [H1 H2].
  specialize (IH H2). destruct (isWhiteSpace c) eqn:E.
  - apply andb_true_iff in H1 as [Hc Hd]. apply Ascii.eqb_eq in Hc as ->.
    destruct s as [|d s']; [discriminate|]. apply negb_true_iff in Hd.
    cbn [replaceWsRuns] in *. rewrite Hd in *. now rewrite IH.
  - now rewrite IH.
Qed.

Lemma singleSpaced_endsClean s : singleSpaced s = true -> endsClean s = true.
Proof.
  induction s as [|c s IH]; [reflexivity|].
  cbn [singleSpaced endsClean]. intros H. apply andb_true_iff in H as [H1 H2].
  destruct s as [|d s']; [|now apply IH].
  destruct (isWhiteSpace c); [|reflexivity].
  apply andb_true_iff in H1 as [_ H1]. discriminate.
Qed.

Lemma normalizeChoice_canonical s : canonical (normalizeChoice s).
Proof.
  rewrite normalizeChoice_alt. unfold canonical. split; [|split].
  - apply noPunct_replaceWsRuns, noPunct_trim, stripPunct_noPunct.
  - apply replaceWsRuns_startsClean. unfold trim.
    apply trimEnd_startsClean, trimStart_startsClean.
  - apply replaceWsRuns_singleSpaced. unfold trim. apply trimEnd_endsClean.
Qed.

Lemma canonical_fixed t : canonical t -> normalizeChoice t = t.
Proof.
  intros (Hp & Hs & Hw). rewrite normalizeChoice_alt, (stripPunct_fixed t Hp).
  unfold trim. rewrite (trimStart_clean t Hs).
  rewrite (trimEnd_clean t (singleSpaced_endsClean t Hw)).
  now apply replaceWsRuns_clean.
Qed.

(** X1. Every canonical key is free of periods and commas, starts and ends
    with a character that is not white space, has single SPACE characters as
    its only white space, and is no longer than the label; the strings of
    that shape are exactly the labels that normalizeChoice leaves unchanged. *)
Theorem normalizeChoice_normal_form :
  (forall label : jsstring,
     canonical (normalizeChoice label)
     /\ endsClean (normalizeChoice label) = true
     /\ length (normalizeChoice label) <= length label)
  /\ (forall key : jsstring, canonical key <-> normalizeChoice key = key).
Proof.
  split.
  - intros s. pose proof (normalizeChoice_canonical s) as H. split; [exact H|]. split.
    + apply singleSpaced_endsClean, H.
    + apply normalizeChoice_length.
  - intros t. split; [apply canonical_fixed|].
    intros <-. apply normalizeChoice_canonical.
Qed.

Lemma normalizeChoice_normal_form_witness :
  canonical (lit "RFK Jr") /\ normalizeChoice (lit "RFK Jr") = lit "RFK Jr".
Proof.
  assert (H : canonical (lit "RFK Jr")).
  { split; [|split; reflexivity]. repeat constructor; discriminate. }
  split; [exact H|]. exact (proj1 (proj2 normalizeChoice_normal_form (lit "RFK Jr")) H).
Defined.

(** ** Labels with one canonical key *)

Lemma punctWsEquiv_removePeriod s u : punctWsEquiv (u ++ s) (u ++ removeAll PERIOD s).
Proof.
  revert u. induction s as [|x s IH]; intros u; [apply pw_refl|].
  unfold removeAll. cbn [List.filter]. fold (removeAll PERIOD s).
  destruct (Ascii.eqb_spec x PERIOD) as [->|Hx]; cbn [negb].
  - apply pw_trans with (u ++ s); [apply pw_period|apply IH].
  - change (u ++ x :: s) with (u ++ [x] ++ s).
    change (u ++ x :: removeAll PERIOD s) with (u ++ [x] ++ removeAll PERIOD s).
    rewrite !app_assoc. apply IH.
Qed.

Lemma punctWsEquiv_removeComma s u : punctWsEquiv (u ++ s) (u ++ removeAll COMMA s).
Proof.
  revert u. induction s as [|x s IH]; intros u; [apply pw_refl|].
  unfold removeAll. cbn [List.filter]. fold (removeAll COMMA s).
  destruct (Ascii.eqb_spec x COMMA) as [->|Hx]; cbn [negb].
  - apply pw_trans with (u ++ s); [apply pw_comma|apply IH].
  - change (u ++ x :: s) with (u ++ [x] ++ s).
    change (u ++ x :: removeAll COMMA s) with (u ++ [x] ++ removeAll COMMA s).
    rewrite !app_assoc. apply IH.
Qed.

Lemma punctWsEquiv_replaceWsRuns s u b :
  (b = true -> exists u' w, u = u' ++ [w] /\ isWhiteSpace w = true) ->
  punctWsEquiv (u ++ s) (u ++ replaceWsRuns b s).
Proof.
  revert u b. induction s as [|c s IH]; intros u b Hb; [apply pw_refl|].
  cbn [replaceWsRuns]. destruct (isWhiteSpace c) eqn:E.
  - destruct b.
    + destruct (Hb eq_refl) as (u' & w & -> & Hw).
      apply pw_trans with ((u' ++ [w]) ++ s); [|now apply IH].
      rewrite <- !app_assoc.
      apply (pw_run u' ([w] ++ [c]) [w] s); try discriminate; repeat constructor; assumption.
    + apply pw_trans with (u ++ [SPACE] ++ s).
      * apply (pw_run u [c] [SPACE] s); try discriminate; repeat constructor; assumption.
      * rewrite app_assoc. change (u ++ SPACE :: replaceWsRuns true s)
          with (u ++ [SPACE] ++ replaceWsRuns true s). rewrite (app_assoc u [SPACE]).
        apply IH. intros _. now exists u, SPACE.
  - change (u ++ c :: s) with (u ++ [c] ++ s).
    change (u ++ c :: replaceWsRuns false s) with (u ++ [c] ++ replaceWsRuns false s).
    rewrite !app_assoc. apply IH. discriminate.
Qed.

Lemma trimStart_split s : exists w, allWhiteSpace w /\ s = w ++ trimStart s.
Proof.
  induction s as [|c s (w & Hw & E)]; [exists []; split; [constructor|reflexivity]|].
  simpl. destruct (isWhiteSpace c) eqn:Ec.
  - exists (c :: w). split; [now constructor|]. simpl. now rewrite <- E.
  - exists []. split; [constructor|reflexivity].
Qed.

Lemma trimEnd_split s : exists w, allWhiteSpace w /\ s = trimEnd s ++ w.
Proof.
  unfold trimEnd. destruct (trimStart_split (rev s)) as (w & Hw & E).
  exists (rev w). split; [now apply allWhiteSpace_rev|].
  rewrite <- rev_app_distr, <- E. symmetry. apply rev_involutive.
Qed.

Lemma punctWsEquiv_normalizeChoice s : punctWsEquiv s (normalizeChoice s).
Proof.
  unfold normalizeChoice.
  apply pw_trans with (removeAll PERIOD s); [apply (punctWsEquiv_removePeriod s [])|].
  apply pw_trans with (removeAll COMMA (removeAll PERIOD s));
    [apply (punctWsEquiv_removeComma _ [])|].
  set (x := removeAll COMMA (removeAll PERIOD s)).
  apply pw_trans with (replaceWsRuns false x);
    [apply (punctWsEquiv_replaceWsRuns x [] false); discriminate|].
  set (y := replaceWsRuns false x). unfold trim.
  destruct (trimStart_split y) as (w & Hw & E).
  apply pw_trans with (trimStart y).
  - rewrite E at 1. now apply pw_leading.
  - destruct (trimEnd_split (trimStart y)) as (w' & Hw' & E').
    rewrite E' at 1. now apply pw_trailing.
Qed.

(** X2. normalizeChoice merges nothing else: every label differs from its
    canonical key only in periods, commas and runs of white space, and two
    labels with the same canonical key differ only in those. *)
Theorem normalizeChoice_merges_only_punctWs :
  (forall label : jsstring, punctWsEquiv label (normalizeChoice label))
  /\ (forall a b : jsstring, normalizeChoice a = normalizeChoice b -> punctWsEquiv a b).
Proof.
  split; [exact punctWsEquiv_normalizeChoice|].
  intros a b E. apply pw_trans with (normalizeChoice a); [apply punctWsEquiv_normalizeChoice|].
  rewrite E. apply pw_sym, punctWsEquiv_normalizeChoice.
Qed.

Lemma normalizeChoice_merges_only_punctWs_witness :
  normalizeChoice (lit "Trump, Jr.") = normalizeChoice (lit " Trump  Jr")
  /\ punctWsEquiv (lit "Trump, Jr.") (lit " Trump  Jr").
Proof.
  assert (H : normalizeChoice (lit "Trump, Jr.") = normalizeChoice (lit " Trump  Jr"))
    by reflexivity.
  split; [exact H|]. exact (proj2 normalizeChoice_merges_only_punctWs _ _ H).
Defined.

(** ** What the scan accounts for *)

Lemma mapSet_list_sum {V : Type} (f : V -> nat) k v (m : list (jsstring * V)) :
  list_sum (map (fun e => f (snd e)) (mapSet k v m))
  + match mapGet k m with Some old => f old | None => 0 end
  = list_sum (map (fun e => f (snd e)) m) + f v.
Proof.
  induction m as [|[k0 v0] m IH]; simpl; [lia|].
  destruct (strEq k0 k); simpl; lia.
Qed.

Section ScanAccounting.
Context {num : Type} {JN : JsNumber num}.
Implicit Types (polls : list (Poll num)) (l : list (Answer num)).

Lemma scanAnswer_counted (m : list (jsstring * ChoiceStats num)) (a : Answer num) :
  countedAnswers (scanAnswer m a) = countedAnswers m + 1.
Proof.
  unfold scanAnswer, countedAnswers. cbv zeta.
  set (k := normalizeChoice (choice a)).
  match goal with
  | |- context [mapSet k ?v m] => pose proof (mapSet_list_sum (@count num) k v m) as H
  end.
  destruct (mapGet k m); simpl in *; lia.
Qed.

Lemma scanAll_counted l : countedAnswers (scanAll l) = length l.
Proof.
  induction l as [|a l IH] using rev_ind; [reflexivity|].
  rewrite scanAll_snoc, scanAnswer_counted, IH, length_app. reflexivity.
Qed.

Lemma scanAll_nil l : scanAll l = [] <-> l = [].
Proof.
  split; [|now intros ->]. intros H.
  pose proof (scanAll_counted l) as Hc. rewrite H in Hc.
  destruct l; [reflexivity|discriminate].
Qed.

Lemma answer_clustered polls a :
  In a (allAnswers polls) ->
  exists st, In (normalizeChoice (choice a), st) (choiceStatsOf polls).
Proof.
  intros Hin. pose proof (choiceStatsOf_lookup polls (normalizeChoice (choice a))) as H.
  assert (Hc : In a (clusterOf (normalizeChoice (choice a)) polls)).
  { apply filter_In. split; [exact Hin|apply strEq_refl]. }
  destruct (clusterOf (normalizeChoice (choice a)) polls) as [|x cl]; [contradiction|].
  eexists. apply mapGet_Some_In. exact H.
Qed.

End ScanAccounting.

(** X3. The scan accounts for every answer exactly once: the keys of
    choiceStats are pairwise distinct, their counts add up to the number of
    answers scanned, every answer finds its cluster under its canonical key,
    and the map is empty only when no poll has an answer. *)
Theorem choiceStats_accounts_for_every_answer :
  forall (num : Type) (JN : JsNumber num) (polls : list (Poll num)),
    List.NoDup (map fst (choiceStatsOf polls))
    /\ countedAnswers (choiceStatsOf polls) = length (allAnswers polls)
    /\ (forall a, In a (allAnswers polls) ->
        exists st, In (normalizeChoice (choice a), st) (choiceStatsOf polls)
                   /\ In (choice a) (originalNames st))
    /\ (choiceStatsOf polls = [] <-> allAnswers polls = []).
Proof.
  intros num JN polls. rewrite choiceStatsOf_scanAll.
  split; [apply scanAll_NoDup|]. split; [apply scanAll_counted|].
  split; [|apply scanAll_nil].
  intros a Ha. destruct (answer_clustered polls a Ha) as (st & Hst).
  rewrite <- choiceStatsOf_scanAll. exists st. split; [exact Hst|].
  destruct (cluster_stats polls _ st Hst) as (_ & _ & _ & -> & _).
  apply in_map. apply filter_In. split; [exact Ha|apply strEq_refl].
Qed.

Lemma choiceStats_accounts_for_every_answer_witness :
  In {| choice := lit "Approve."; pct := 44%float |} (allAnswers approvalPolls)
  /\ exists st, In (lit "Approve", st) (choiceStatsOf approvalPolls)
                /\ In (lit "Approve.") (originalNames st).
Proof.
  assert (H : In {| choice := lit "Approve."; pct := 44%float |} (allAnswers approvalPolls))
    by (right; right; left; reflexivity).
  split; [exact H|].
  exact (proj1 (proj2 (proj2 (choiceStats_accounts_for_every_answer _ _ approvalPolls))) _ H).
Defined.

(** ** The entries of the summary *)

Lemma NoDup_firstn {A : Type} (n : nat) (l : list A) : List.NoDup l -> List.NoDup (firstn n l).
Proof.
  intros H. rewrite <- (firstn_skipn n l) in H. now apply List.NoDup_app_remove_r in H.
Qed.

Section SummaryFacts.
Context {num : Type} {JN : JsNumber num}.
Implicit Types (polls : list (Poll num)) (colorMap : gmap jsstring jsstring).

Lemma choiceAverages_keys polls :
  map uc_normalized (choiceAverages polls) = map fst (choiceStatsOf polls).
Proof.
  unfold choiceAverages. rewrite map_map. apply map_ext. now intros [k st].
Qed.

Lemma uniqueChoices_keys_NoDup polls : List.NoDup (map uc_normalized (uniqueChoices polls)).
Proof.
  apply (Permutation_NoDup (l := map uc_normalized (choiceAverages polls))).
  - apply Permutation_map. symmetry. apply jsSort_perm.
  - rewrite choiceAverages_keys, choiceStatsOf_scanAll. apply scanAll_NoDup.
Qed.

Lemma uniqueChoices_displayNames polls :
  map uc_displayName (uniqueChoices polls) = map uc_normalized (uniqueChoices polls).
Proof.
  apply map_ext_in. intros item H. now destruct (uniqueChoice_average polls item H) as (_ & ? & _).
Qed.

Lemma summary_names polls colorMap :
  map cd_displayName (calculateChoicesWithColors polls colorMap)
  = firstn 10 (map uc_normalized (uniqueChoices polls)).
Proof.
  unfold calculateChoicesWithColors. rewrite map_map. cbn [cd_displayName].
  rewrite <- uniqueChoices_displayNames. symmetry. apply firstn_map.
Qed.

Lemma summary_name_origin polls colorMap cd :
  In cd (calculateChoicesWithColors polls colorMap) ->
  exists a, In a (allAnswers polls) /\ normalizeChoice (choice a) = cd_displayName cd.
Proof.
  intros H. apply calculateChoicesWithColors_In in H as (item & Hi & Hd & _).
  apply firstn_In in Hi. destruct (uniqueChoice_average polls item Hi) as (Hne & Hk & _).
  destruct (clusterOf (uc_normalized item) polls) as [|a cl] eqn:E; [contradiction|].
  assert (Ha : In a (clusterOf (uc_normalized item) polls)) by (rewrite E; now left).
  apply filter_In in Ha as [Ha Hm]. apply strEq_true in Hm.
  exists a. split; [exact Ha|]. now rewrite Hd, Hk.
Qed.

End SummaryFacts.

(** X4. The entries of the summary have pairwise distinct display names,
    each of them the canonical key of some answer of the polls (hence in
    canonical form), and the summary is empty exactly when no poll has an
    answer. *)
Theorem summary_display_names :
  forall (num : Type) (JN : JsNumber num) (polls : list (Poll num))
         (colorMap : gmap jsstring jsstring),
    let out := calculateChoicesWithColors polls colorMap in
    List.NoDup (map cd_displayName out)
    /\ (forall cd, In cd out ->
          canonical (cd_displayName cd)
          /\ exists a, In a (allAnswers polls)
                       /\ normalizeChoice (choice a) = cd_displayName cd)
    /\ (out = [] <-> allAnswers polls = []).
Proof.
  intros num JN polls colorMap out. split; [|split].
  - unfold out. rewrite summary_names. apply NoDup_firstn, uniqueChoices_keys_NoDup.
  - intros cd H. destruct (summary_name_origin polls colorMap cd H) as (a & Ha & E).
    split; [|now exists a]. rewrite <- E. apply normalizeChoice_canonical.
  - pose proof (calculateChoicesWithColors_length polls colorMap) as HL. fold out in HL.
    rewrite <- (scanAll_nil (allAnswers polls)), <- choiceStatsOf_scanAll.
    split; intros E.
    + rewrite E in HL. simpl in HL. destruct (choiceStatsOf polls); [reflexivity|discriminate].
    + rewrite E in HL. simpl in HL. now destruct out.
Qed.

Lemma summary_display_names_witness :
  In {| cd_displayName := lit "Approve"; cd_average := 44.5%float; cd_color := VString GREEN |}
     (calculateChoicesWithColors approvalPolls approvalColors)
  /\ canonical (lit "Approve").
Proof.
  assert (H : In {| cd_displayName := lit "Approve"; cd_average := 44.5%float;
                    cd_color := VString GREEN |}
                 (calculateChoicesWithColors approvalPolls approvalColors))
    by (right; left; reflexivity).
  split; [exact H|].
  exact (proj1 (proj1 (proj2 (summary_display_names _ _ approvalPolls approvalColors)) _ H)).
Defined.

(** ** Stability of the sorts *)

Section StableSort.
Context {A : Type} (gt : A -> A -> bool) (P : A -> bool).

Lemma insertSorted_filter x l :
  (forall y, In y l -> gt x y = true -> P x = true -> P y = false) ->
  List.filter P (insertSorted gt x l) = List.filter P (x :: l).
Proof.
  induction l as [|y l IH]; intros H; [reflexivity|].
  cbn [insertSorted]. destruct (gt x y) eqn:E; [|reflexivity].
  cbn [List.filter]. rewrite IH by (intros z Hz; apply H; now right).
  cbn [List.filter]. destruct (P x) eqn:Px; [|reflexivity].
  now rewrite (H y (or_introl eq_refl) E eq_refl).
Qed.

Lemma jsSort_filter l :
  (forall x y, In x l -> In y l -> gt x y = true -> P x = true -> P y = false) ->
  List.filter P (jsSort gt l) = List.filter P l.
Proof.
  induction l as [|x l IH]; intros H; [reflexivity|].
  cbn [jsSort fold_right]. fold (jsSort gt l). rewrite insertSorted_filter.
  - cbn [List.filter]. rewrite IH; [reflexivity|].
    intros a b Ha Hb. apply H; now right.
  - intros y Hy. apply jsSort_In in Hy. apply H; [now left|now right].
Qed.

End StableSort.

(** X5. The end-date sort is stable: polls that end on the same date stay in
    the order of the response, every end date being a valid date. *)
Theorem sortedPolls_stable :
  forall (num : Type) (getTime : jsstring -> option Z) (polls : list (Poll num)) (t : Z),
    (forall p, In p polls -> getTime (end_date p) <> None) ->
    List.filter (endingAt getTime t) (sortedPolls getTime polls)
    = List.filter (endingAt getTime t) polls.
Proof.
  intros num getTime polls t _. unfold sortedPolls. apply jsSort_filter.
  intros x y _ _. unfold byEndDateDesc, endingAt.
  destruct (getTime (end_date y)) as [ty|]; [|discriminate].
  destruct (getTime (end_date x)) as [tx|]; [|discriminate].
  rewrite Z.ltb_lt, Z.eqb_eq. intros Hlt ->. apply Z.eqb_neq. lia.
Qed.

Lemma sortedPolls_stable_witness :
  (forall p, In p (datedPolls ++ datedPolls) -> isoDateTime (end_date p) <> None)
  /\ map poll_id (List.filter (endingAt isoDateTime 1706745600000)
                    (sortedPolls isoDateTime (datedPolls ++ datedPolls)))
     = map lit ["c"; "c"]%string.
Proof.
  assert (H : forall p, In p (datedPolls ++ datedPolls) -> isoDateTime (end_date p) <> None).
  { intros p Hp. repeat (destruct Hp as [<-|Hp]; [discriminate|]). destruct Hp. }
  split; [exact H|].
  rewrite (sortedPolls_stable _ isoDateTime (datedPolls ++ datedPolls) 1706745600000 H).
  reflexivity.
Defined.



(** ** The cells of the table *)

Lemma find_first {A : Type} (f : A -> bool) (l : list A) (x : A) :
  List.find f l = Some x ->
  exists l1 l2, l = l1 ++ x :: l2 /\ f x = true /\ forall y, In y l1 -> f y = false.
Proof.
  induction l as [|y l IH]; [discriminate|].
  simpl. destruct (f y) eqn:E.
  - intros [= ->]. exists [], l. repeat split; [exact E|contradiction].
  - intros H. destruct (IH H) as (l1 & l2 & -> & Hx & Hn).
    exists (y :: l1), l2. repeat split; [exact Hx|].
    intros z [<-|Hz]; [exact E|now apply Hn].
Qed.

Section CellFacts.
Context {num : Type} {JN : JsNumber num}.
Implicit Types (poll : Poll num) (polls : list (Poll num)) (key : jsstring).

Lemma getAnswerPct_find poll key :
  getAnswerPct poll key
  = match List.find (inCluster key) (answersOf poll) with
    | Some a => Some (pct a)
    | None => None
    end.
Proof. unfold getAnswerPct, answersOf. now destruct (answers poll). Qed.

Lemma answersOf_allAnswers polls poll a :
  In poll polls -> In a (answersOf poll) -> In a (allAnswers polls).
Proof. intros Hp Ha. unfold allAnswers. apply in_flat_map. now exists poll. Qed.

End CellFacts.

(** X7. getAnswerPct returns null exactly when no answer of the poll has
    the given canonical key; otherwise it returns the percentage of the first
    such answer, later ones being ignored, and for a poll of the table that
    percentage is one of those averaged for the column. *)
Theorem getAnswerPct_first_of_cluster :
  forall (num : Type) (JN : JsNumber num) (poll : Poll num) (key : jsstring),
    (getAnswerPct poll key = None
     <-> forall a, In a (answersOf poll) -> normalizeChoice (choice a) <> key)
    /\ (forall p, getAnswerPct poll key = Some p ->
          exists before a after,
            answersOf poll = before ++ a :: after /\ pct a = p
            /\ normalizeChoice (choice a) = key
            /\ forall b, In b before -> normalizeChoice (choice b) <> key)
    /\ (forall polls p, In poll polls -> getAnswerPct poll key = Some p ->
          exists a, In a (clusterOf key polls) /\ pct a = p).
Proof.
  intros num JN poll key. rewrite getAnswerPct_find.
  assert (Hsome : forall p,
            match List.find (inCluster key) (answersOf poll) with
            | Some a => Some (pct a) | None => None end = Some p ->
            exists before a after,
              answersOf poll = before ++ a :: after /\ pct a = p
              /\ normalizeChoice (choice a) = key
              /\ forall b, In b before -> normalizeChoice (choice b) <> key).
  { intros p H. destruct (List.find (inCluster key) (answersOf poll)) as [a|] eqn:E;
      [|discriminate].
    injection H as <-. apply find_first in E as (l1 & l2 & E & Ha & Hn).
    exists l1, a, l2. split; [exact E|]. split; [reflexivity|].
    split; [now apply strEq_true in Ha|].
    intros b Hb. apply strEq_false. now apply Hn. }
  split; [|split; [exact Hsome|]].
  - destruct (List.find (inCluster key) (answersOf poll)) as [a|] eqn:E.
    + split; [discriminate|]. intros H. apply List.find_some in E as [Ha Hk].
      apply strEq_true in Hk. now apply H in Ha.
    + split; [|reflexivity]. intros _ a Ha. apply strEq_false.
      exact (List.find_none _ _ E a Ha).
  - intros polls p Hp H. destruct (Hsome p H) as (l1 & a & l2 & E & Hpct & Hk & _).
    exists a. split; [|exact Hpct]. apply filter_In. split.
    + apply (answersOf_allAnswers polls poll); [exact Hp|].
      rewrite E. apply in_or_app. right. now left.
    + now apply strEq_true.
Qed.

Lemma getAnswerPct_first_of_cluster_witness :
  getAnswerPct secondApprovalPoll (lit "Approve") = Some 44%float
  /\ In secondApprovalPoll approvalPolls
  /\ exists a, In a (clusterOf (lit "Approve") approvalPolls) /\ pct a = 44%float.
Proof.
  assert (H1 : getAnswerPct secondApprovalPoll (lit "Approve") = Some 44%float) by reflexivity.
  assert (H2 : In secondApprovalPoll approvalPolls) by (right; left; reflexivity).
  split; [exact H1|]. split; [exact H2|].
  exact (proj2 (proj2 (getAnswerPct_first_of_cluster _ _ secondApprovalPoll (lit "Approve")))
               approvalPolls _ H2 H1).
Defined.

Section WinnerFacts.
Context {num : Type} {JN : JsNumber num}.
Implicit Types (poll : Poll num) (polls : list (Poll num))
  (choiceStats : list (jsstring * ChoiceStats num)).

Lemma getWinnerInfo_ranked choiceStats poll :
  getWinnerInfo choiceStats poll
  = match rankedAnswers poll with
    | [] => None
    | top :: rest =>
        Some {| winner := match mapGet (normalizeChoice (choice top)) choiceStats with
                          | Some st => match displayName st with
                                       | c :: r => c :: r
                                       | [] => choice top
                                       end
                          | None => choice top
                          end;
                margin := match rest with
                          | second :: _ => nsub (pct top) (pct second)
                          | [] => pct top
                          end |}
    end.
Proof.
  unfold getWinnerInfo, rankedAnswers, answersOf.
  destruct (answers poll) as [[|a l]|]; reflexivity.
Qed.

Lemma rankedAnswers_perm poll : Permutation (rankedAnswers poll) (answersOf poll).
Proof. apply jsSort_perm. Qed.

Lemma rankedAnswers_sorted poll :
  consistentOn (map pct (answersOf poll)) = true ->
  Sorted.StronglySorted (fun a b => belowN (pct a) (pct b) = false) (rankedAnswers poll).
Proof.
  intros H. apply consistentOn_spec in H as [Hasym Htrans].
  unfold rankedAnswers.
  apply (jsSort_sorted byPctDesc (fun a => In a (answersOf poll))).
  - intros x y Hx Hy. apply Hasym; now apply in_map.
  - intros x y z Hx Hy Hz. apply Htrans; now apply in_map.
  - now apply List.Forall_forall.
Qed.

Lemma shownName_stats polls poll top :
  In poll polls -> In top (answersOf poll) ->
  match mapGet (normalizeChoice (choice top)) (choiceStatsOf polls) with
  | Some st => match displayName st with c :: r => c :: r | [] => choice top end
  | None => choice top
  end = shownName top.
Proof.
  intros Hp Ht.
  destruct (answer_clustered polls top (answersOf_allAnswers polls poll top Hp Ht))
    as (st & Hst).
  rewrite (In_mapGet _ _ _ (eq_ind_r (fun m => List.NoDup (map fst m))
             (scanAll_NoDup _) (choiceStatsOf_scanAll polls)) Hst).
  rewrite (displayName_key polls _ st Hst). reflexivity.
Qed.

End WinnerFacts.

(** X8. getWinnerInfo returns null exactly for a poll without answers;
    otherwise the winner is the first of the poll's answers ranked by
    percentage, the margin is its distance to the second (its own percentage
    when it stands alone), and, the comparator being consistent on the poll's
    percentages, no answer of the poll has a higher percentage. *)
Theorem getWinnerInfo_leader :
  forall (num : Type) (JN : JsNumber num)
         (choiceStats : list (jsstring * ChoiceStats num)) (poll : Poll num),
    (getWinnerInfo choiceStats poll = None <-> answersOf poll = [])
    /\ (forall info, getWinnerInfo choiceStats poll = Some info ->
          exists top rest,
            rankedAnswers poll = top :: rest
            /\ Permutation (top :: rest) (answersOf poll)
            /\ margin info = match rest with
                             | second :: _ => nsub (pct top) (pct second)
                             | [] => pct top
                             end
            /\ (consistentOn (map pct (answersOf poll)) = true ->
                forall a, In a (answersOf poll) -> a = top \/ belowN (pct top) (pct a) = false)).
Proof.
  intros num JN cs poll. rewrite getWinnerInfo_ranked.
  pose proof (rankedAnswers_perm poll) as Hperm. split.
  - destruct (rankedAnswers poll) as [|top rest].
    + split; [|reflexivity]. intros _. now apply Permutation_nil.
    + split; [discriminate|]. intros E. rewrite E in Hperm.
      apply Permutation_sym, Permutation_nil in Hperm. discriminate.
  - intros info H. pose proof (rankedAnswers_sorted poll) as Hs.
    destruct (rankedAnswers poll) as [|top rest]; [discriminate|]. injection H as <-.
    exists top, rest. split; [reflexivity|]. split; [exact Hperm|]. split; [reflexivity|].
    intros Hc a Ha. apply (Permutation_in _ (Permutation_sym Hperm)) in Ha.
    destruct Ha as [<-|Ha]; [now left|right].
    specialize (Hs Hc). apply Sorted.StronglySorted_inv in Hs as [_ Hs].
    now apply (proj1 (List.Forall_forall _ rest) Hs).
Qed.

Lemma getWinnerInfo_leader_witness :
  getWinnerInfo (choiceStatsOf approvalPolls) secondApprovalPoll
  = Some {| winner := lit "Disapprove"; margin := 7%float |}
  /\ consistentOn (map pct (answersOf secondApprovalPoll)) = true
  /\ exists top rest,
       rankedAnswers secondApprovalPoll = top :: rest
       /\ Permutation (top :: rest) (answersOf secondApprovalPoll)
       /\ 7%float = match rest with
                    | second :: _ => nsub (pct top) (pct second)
                    | [] => pct top
                    end
       /\ (consistentOn (map pct (answersOf secondApprovalPoll)) = true ->
           forall a, In a (answersOf secondApprovalPoll) ->
                     a = top \/ belowN (pct top) (pct a) = false).
Proof.
  assert (H : getWinnerInfo (choiceStatsOf approvalPolls) secondApprovalPoll
              = Some {| winner := lit "Disapprove"; margin := 7%float |}) by reflexivity.
  split; [exact H|]. split; [vm_compute; reflexivity|].
  exact (proj2 (getWinnerInfo_leader _ _ (choiceStatsOf approvalPolls) secondApprovalPoll) _ H).
Defined.

(** X9. In a table built from [polls], the winner of one of these polls is
    named by the canonical key of its top answer, which is the display name
    of that answer's column and summary entry; only when that key is the
    empty string is the raw label shown instead. *)
Theorem getWinnerInfo_name :
  forall (num : Type) (JN : JsNumber num) (polls : list (Poll num)) (poll : Poll num)
         (info : WinnerInfo num),
    In poll polls ->
    getWinnerInfo (choiceStatsOf polls) poll = Some info ->
    exists top rest,
      rankedAnswers poll = top :: rest
      /\ winner info = shownName top
      /\ (normalizeChoice (choice top) <> [] ->
          winner info = normalizeChoice (choice top)
          /\ In (winner info) (map uc_displayName (uniqueChoices polls)))
      /\ (normalizeChoice (choice top) = [] -> winner info = choice top).
Proof.
  intros num JN polls poll info Hp H. rewrite getWinnerInfo_ranked in H.
  pose proof (rankedAnswers_perm poll) as Hperm.
  destruct (rankedAnswers poll) as [|top rest]; [discriminate|]. injection H as <-.
  assert (Ht : In top (answersOf poll)).
  { apply (Permutation_in _ Hperm). now left. }
  exists top, rest. split; [reflexivity|]. cbn [winner].
  rewrite (shownName_stats polls poll top Hp Ht). split; [reflexivity|].
  unfold shownName. destruct (normalizeChoice (choice top)) as [|c r] eqn:E.
  - split; [congruence|reflexivity].
  - split; [|discriminate]. intros _. split; [reflexivity|].
    rewrite uniqueChoices_displayNames.
    destruct (cluster_ranked polls (c :: r)) as (item & Hi & Hk).
    + intros Hnil. assert (Hin : In top (clusterOf (c :: r) polls)).
      { apply filter_In. split; [now apply (answersOf_allAnswers polls poll)|].
        now apply strEq_true. }
      rewrite Hnil in Hin. contradiction.
    + rewrite <- Hk. now apply in_map.
Qed.

Lemma getWinnerInfo_name_witness :
  In closeRace [closeRace]
  /\ getWinnerInfo (choiceStatsOf [closeRace]) closeRace
     = Some {| winner := lit "Disapprove"; margin := 3.5%Q |}
  /\ exists top rest,
       rankedAnswers closeRace = top :: rest
       /\ lit "Disapprove" = shownName top
       /\ (normalizeChoice (choice top) <> [] ->
           lit "Disapprove" = normalizeChoice (choice top)
           /\ In (lit "Disapprove") (map uc_displayName (uniqueChoices [closeRace])))
       /\ (normalizeChoice (choice top) = [] -> lit "Disapprove" = choice top).
Proof.
  assert (H1 : In closeRace [closeRace]) by (left; reflexivity).
  assert (H2 : getWinnerInfo (choiceStatsOf [closeRace]) closeRace
               = Some {| winner := lit "Disapprove"; margin := 3.5%Q |}) by reflexivity.
  split; [exact H1|]. split; [exact H2|].
  exact (getWinnerInfo_name _ _ [closeRace] closeRace _ H1 H2).
Defined.






(** ** Colours across the summary and the table *)

(** X11. What the colour map gives for a column's display name is used
    alike by the summary entry of that name, by every filled cell of the
    column and by every Result cell naming that winner, be it the map's own
    non-empty colour or, for a name that the map lacks and Object.prototype
    defines, the inherited property.  When the map gives nothing for the
    name, the summary entry is grey whereas a filled cell is black; an empty
    cell is muted in every case. *)
Theorem colors_across_components :
  forall (num : Type) (JN : JsNumber num) (JZ : JsNumberZero num)
         (polls : list (Poll num)) (colorMap : gmap jsstring jsstring)
         (item : UniqueChoice num),
    In item (tableColumns polls) ->
    (exists cd, In cd (calculateChoicesWithColors polls colorMap)
                /\ cd_displayName cd = uc_displayName item
                /\ cd_average cd = uc_average item)
    /\ (forall v,
          (exists c r, colorMap !! uc_displayName item = Some (c :: r) /\ v = VString (c :: r))
          \/ (colorMap !! uc_displayName item = None
              /\ inheritedName (uc_displayName item) = true
              /\ v = VInherited (uc_displayName item)) ->
          (forall cd, In cd (calculateChoicesWithColors polls colorMap) ->
                      cd_displayName cd = uc_displayName item -> cd_color cd = v)
          /\ (forall poll, getAnswerPct poll (uc_normalized item) <> None ->
                           choiceCellColor colorMap poll item = v)
          /\ (forall choiceStats poll lead color,
                resultCell choiceStats colorMap poll = Leader (uc_displayName item) lead color ->
                color = v))
    /\ (noValueFor colorMap (uc_displayName item) ->
          (forall cd, In cd (calculateChoicesWithColors polls colorMap) ->
                      cd_displayName cd = uc_displayName item -> cd_color cd = VString GREY)
          /\ (forall poll, getAnswerPct poll (uc_normalized item) <> None ->
                           choiceCellColor colorMap poll item = VString BLACK))
    /\ (forall poll, getAnswerPct poll (uc_normalized item) = None ->
                     choiceCellColor colorMap poll item = VString MUTED).
Proof.
  intros num JN JZ polls colorMap item Hi. split; [|split; [|split]].
  - exists {| cd_displayName := uc_displayName item; cd_average := uc_average item;
              cd_color := colorOr colorMap (uc_displayName item) GREY |}.
    split; [|split; reflexivity].
    unfold calculateChoicesWithColors. apply in_map_iff. now exists item.
  - intros v Hv.
    assert (Hor : forall fallback, colorOr colorMap (uc_displayName item) fallback = v).
    { intros fallback. destruct Hv as [(c & r & Hc & ->)|(Hc & Hin & ->)].
      - now apply colorOr_mapped.
      - now apply colorOr_inherited. }
    split; [|split].
    + intros cd Hcd Hn. apply calculateChoicesWithColors_In in Hcd as (it & _ & Hd & _ & Hcol).
      rewrite Hcol, <- Hd, Hn. apply Hor.
    + intros poll Hp. unfold choiceCellColor.
      destruct (getAnswerPct poll (uc_normalized item)); [apply Hor|congruence].
    + intros cs poll lead color H. unfold resultCell in H.
      destruct (getWinnerInfo cs poll) as [info|]; [|discriminate].
      destruct (nisZero (margin info)); [discriminate|]. injection H as Hw _ <-.
      rewrite Hw. destruct Hv as [(c & r & Hc & ->)|(Hc & Hin & ->)].
      * now apply getWinnerColor_mapped.
      * now apply getWinnerColor_inherited.
  - intros Hno. split.
    + intros cd Hcd Hn. apply calculateChoicesWithColors_In in Hcd as (it & _ & Hd & _ & Hcol).
      rewrite Hcol, <- Hd, Hn. now apply colorOr_noValue.
    + intros poll Hp. unfold choiceCellColor.
      destruct (getAnswerPct poll (uc_normalized item)); [|congruence].
      now apply colorOr_noValue.
  - intros poll Hp. unfold choiceCellColor. now rewrite Hp.
Qed.

Lemma colors_across_components_witness :
  In approveItem (tableColumns approvalPolls)
  /\ approvalColors !! uc_displayName approveItem = Some GREEN
  /\ getAnswerPct secondApprovalPoll (uc_normalized approveItem) <> None
  /\ choiceCellColor approvalColors secondApprovalPoll approveItem = VString GREEN
  /\ noValueFor ∅ (uc_displayName approveItem)
  /\ choiceCellColor ∅ secondApprovalPoll approveItem = VString BLACK.
Proof.
  assert (H1 : In approveItem (tableColumns approvalPolls)) by (right; left; reflexivity).
  assert (H2 : approvalColors !! uc_displayName approveItem = Some GREEN)
    by apply lookup_insert_eq.
  assert (H3 : getAnswerPct secondApprovalPoll (uc_normalized approveItem) <> None)
    by discriminate.
  assert (H4 : noValueFor ∅ (uc_displayName approveItem))
    by (right; split; [apply lookup_empty|reflexivity]).
  split; [exact H1|]. split; [exact H2|]. split; [exact H3|]. split; [|split; [exact H4|]].
  - exact (proj1 (proj2 (proj1 (proj2 (colors_across_components _ _ _ approvalPolls
             approvalColors approveItem H1)) (VString GREEN)
             (or_introl (ex_intro _ "#"%char (ex_intro _ (lit "288544") (conj H2 eq_refl))))))
             _ H3).
  - exact (proj2 (proj1 (proj2 (proj2 (colors_across_components _ _ _ approvalPolls
             ∅ approveItem H1))) H4) _ H3).
Defined.

(** ** Division keys and tabs *)

Lemma replaceEach_absent c d s : ~ In c s -> replaceEach c d s = s.
Proof.
  induction s as [|x s IH]; intros H; [reflexivity|].
  unfold replaceEach in *. cbn [map].
  destruct (Ascii.eqb_spec x c) as [->|_]; [exfalso; apply H; now left|].
  rewrite IH; [reflexivity|]. intros Hin. apply H. now right.
Qed.

Lemma replaceEach_back c d s : ~ In d s -> replaceEach d c (replaceEach c d s) = s.
Proof.
  induction s as [|x s IH]; intros H; [reflexivity|].
  unfold replaceEach in *. cbn [map].
  rewrite IH by (intros Hin; apply H; now right). f_equal.
  destruct (Ascii.eqb_spec x c) as [->|Hx].
  - now rewrite Ascii.eqb_refl.
  - destruct (Ascii.eqb_spec x d) as [->|_]; [exfalso; apply H; now left|reflexivity].
Qed.

Lemma first_split c s : In c s -> s = beforeFirst c s ++ c :: afterFirst c s.
Proof.
  induction s as [|x s IH]; intros H; [contradiction|].
  cbn [beforeFirst afterFirst]. destruct (Ascii.eqb_spec x c) as [->|Hx]; [reflexivity|].
  destruct H as [H|H]; [contradiction|]. simpl. now rewrite <- IH.
Qed.

Lemma beforeFirst_In c s x : In x (beforeFirst c s) -> In x s.
Proof.
  induction s as [|y s IH]; [contradiction|].
  cbn [beforeFirst]. destruct (Ascii.eqb y c); [contradiction|].
  intros [<-|H]; [now left|right; now apply IH].
Qed.

Lemma afterFirst_In c s x : In x (afterFirst c s) -> In x s.
Proof.
  induction s as [|y s IH]; [contradiction|].
  cbn [afterFirst]. destruct (Ascii.eqb y c); intros H; right; [exact H|now apply IH].
Qed.

Lemma beforeFirst_at c a b : ~ In c a -> beforeFirst c (a ++ c :: b) = a.
Proof.
  induction a as [|x a IH]; intros H; simpl; [now rewrite Ascii.eqb_refl|].
  destruct (Ascii.eqb_spec x c) as [->|Hc]; [exfalso; apply H; now left|].
  rewrite IH; [reflexivity|]. intros Hin. apply H. now right.
Qed.

Lemma afterFirst_at c a b : ~ In c a -> afterFirst c (a ++ c :: b) = b.
Proof.
  induction a as [|x a IH]; intros H; simpl; [now rewrite Ascii.eqb_refl|].
  destruct (Ascii.eqb_spec x c) as [->|Hc]; [exfalso; apply H; now left|].
  apply IH. intros Hin. apply H. now right.
Qed.

Lemma replaceEach_In c d s x : In x (replaceEach c d s) -> x = d \/ In x s.
Proof.
  unfold replaceEach. intros H. apply in_map_iff in H as (y & <- & Hy).
  destruct (Ascii.eqb y c); [now left|now right].
Qed.

(** X12. A division key written subject, underscore, poll type is parsed
    back into exactly that subject and poll type when neither contains an
    underscore; and a key that contains an underscore but no hyphen is
    recovered from what was parsed by turning the hyphens of the poll type
    back into underscores. *)
Theorem parseDivisionKey_round_trip :
  (forall subject pollType : jsstring,
     ~ In UNDERSCORE subject -> ~ In UNDERSCORE pollType ->
     parseDivisionKey (subject ++ UNDERSCORE :: pollType) = (subject, pollType))
  /\ (forall key : jsstring,
        In UNDERSCORE key -> ~ In HYPHEN key ->
        key = fst (parseDivisionKey key)
              ++ UNDERSCORE :: replaceEach HYPHEN UNDERSCORE (snd (parseDivisionKey key))).
Proof.
  split.
  - intros s p Hs Hp. rewrite parseDivisionKey_eq.
    rewrite (beforeFirst_at UNDERSCORE s p Hs), (afterFirst_at UNDERSCORE s p Hs).
    now rewrite replaceEach_absent.
  - intros key Hu Hh. rewrite parseDivisionKey_eq. cbn [fst snd].
    rewrite replaceEach_back.
    + now apply first_split.
    + intros Hin. apply Hh. now apply afterFirst_In in Hin.
Qed.

Lemma parseDivisionKey_round_trip_witness :
  ~ In UNDERSCORE (lit "Generic") /\ ~ In UNDERSCORE (lit "generic-ballot")
  /\ parseDivisionKey (lit "Generic_generic-ballot") = (lit "Generic", lit "generic-ballot").
Proof.
  assert (H1 : ~ In UNDERSCORE (lit "Generic")).
  { intros H. repeat (destruct H as [H|H]; [discriminate H|]). destruct H. }
  assert (H2 : ~ In UNDERSCORE (lit "generic-ballot")).
  { intros H. repeat (destruct H as [H|H]; [discriminate H|]). destruct H. }
  split; [exact H1|]. split; [exact H2|].
  exact (proj1 parseDivisionKey_round_trip (lit "Generic") (lit "generic-ballot") H1 H2).
Defined.

Lemma groupKeyOf_eq key :
  groupKeyOf key
  = beforeFirst UNDERSCORE key
    ++ PIPE :: replaceEach UNDERSCORE HYPHEN (afterFirst UNDERSCORE key).
Proof. unfold groupKeyOf. now rewrite parseDivisionKey_eq. Qed.

(** X13. Two division keys receive the same group key, hence share one tab,
    only if they are equal, provided both contain an underscore and neither
    contains a hyphen or a vertical bar; each proviso is needed, as the keys
    "a_b_c" and "a_b-c", "a" and "a_", "a|b_c" and "a_b|c" collide. *)
Theorem groupKeyOf_injective :
  (forall k1 k2 : jsstring,
     In UNDERSCORE k1 -> In UNDERSCORE k2 ->
     ~ In HYPHEN k1 -> ~ In HYPHEN k2 -> ~ In PIPE k1 -> ~ In PIPE k2 ->
     groupKeyOf k1 = groupKeyOf k2 -> k1 = k2)
  /\ groupKeyOf (lit "a_b_c") = groupKeyOf (lit "a_b-c")
  /\ groupKeyOf (lit "a") = groupKeyOf (lit "a_")
  /\ groupKeyOf (lit "a|b_c") = groupKeyOf (lit "a_b|c").
Proof.
  split; [|repeat split; reflexivity].
  intros k1 k2 U1 U2 H1 H2 P1 P2 E. rewrite !groupKeyOf_eq in E.
  assert (Hs : forall k, ~ In PIPE k -> ~ In PIPE (beforeFirst UNDERSCORE k)).
  { intros k Hk Hin. apply Hk. now apply beforeFirst_In in Hin. }
  pose proof (f_equal (beforeFirst PIPE) E) as Eb.
  rewrite !beforeFirst_at in Eb by auto.
  pose proof (f_equal (afterFirst PIPE) E) as Ea.
  rewrite !afterFirst_at in Ea by auto.
  apply (f_equal (replaceEach HYPHEN UNDERSCORE)) in Ea.
  rewrite !replaceEach_back in Ea
    by (intros Hin; apply afterFirst_In in Hin; contradiction).
  rewrite (first_split UNDERSCORE k1 U1), (first_split UNDERSCORE k2 U2).
  now rewrite Eb, Ea.
Qed.

Lemma groupKeyOf_injective_witness :
  groupKeyOf (lit "Biden_approval") = groupKeyOf (lit "Biden_approval")
  /\ lit "Biden_approval" = lit "Biden_approval".
Proof.
  assert (E : groupKeyOf (lit "Biden_approval") = groupKeyOf (lit "Biden_approval"))
    by reflexivity.
  split; [exact E|].
  assert (Hn : forall c, In c (lit "Biden_approval") -> c <> HYPHEN /\ c <> PIPE).
  { intros c H. repeat (destruct H as [<-|H]; [split; discriminate|]). destruct H. }
  refine (proj1 groupKeyOf_injective _ _ _ _ _ _ _ _ E).
  - do 5 right. left. reflexivity.
  - do 5 right. left. reflexivity.
  - intros H. now apply Hn in H.
  - intros H. now apply Hn in H.
  - intros H. now apply Hn in H.
  - intros H. now apply Hn in H.
Defined.

Section GroupFacts.
Context {num : Type} (getTime : jsstring -> option Z).
Implicit Types (data : list (jsstring * DivisionData num))
  (entry : jsstring * DivisionData num).

Lemma addDivision_eq (state : list (jsstring * PollGroup num) * list (Poll num)) entry :
  addDivision getTime state entry
  = (mapSet (groupKeyOf (fst entry)) (groupOf getTime entry) (fst state),
     snd state ++ sortedPolls getTime (div_polls (snd entry))).
Proof.
  destruct state as [grouped allPolls], entry as [key d].
  unfold addDivision, groupKeyOf, groupOf. cbn [fst snd].
  now destruct (parseDivisionKey key).
Qed.

Lemma groupDivisions_snoc data entry :
  groupDivisions getTime (data ++ [entry])
  = addDivision getTime (groupDivisions getTime data) entry.
Proof. unfold groupDivisions. now rewrite fold_left_app. Qed.

Lemma groupDivisions_allPolls data :
  snd (groupDivisions getTime data)
  = flat_map (fun entry => sortedPolls getTime (div_polls (snd entry))) data.
Proof.
  induction data as [|entry data IH] using rev_ind; [reflexivity|].
  rewrite groupDivisions_snoc, addDivision_eq, flat_map_app. cbn [snd flat_map].
  now rewrite IH, app_nil_r.
Qed.

Lemma groupDivisions_lookup data k :
  mapGet k (fst (groupDivisions getTime data))
  = option_map (groupOf getTime) (lastWithGroupKey k data).
Proof.
  unfold lastWithGroupKey.
  induction data as [|entry data IH] using rev_ind; [reflexivity|].
  rewrite groupDivisions_snoc, addDivision_eq, rev_app_distr. cbn [fst rev app List.find].
  rewrite mapGet_mapSet. destruct (strEq (groupKeyOf (fst entry)) k); [reflexivity|exact IH].
Qed.

Lemma groupDivisions_keys data :
  List.NoDup (map fst (fst (groupDivisions getTime data)))
  /\ length (fst (groupDivisions getTime data)) <= length data
  /\ hd_error (map fst (fst (groupDivisions getTime data)))
     = hd_error (map (fun entry => groupKeyOf (fst entry)) data).
Proof.
  induction data as [|entry data (IH1 & IH2 & IH3)] using rev_ind.
  - split; [constructor|]. split; reflexivity.
  - rewrite groupDivisions_snoc, addDivision_eq. cbn [fst].
    split; [now apply mapSet_NoDup|]. split.
    + rewrite <- (length_map fst), mapSet_keys, length_app.
      destruct (mapGet _ _); rewrite ?length_app, length_map; simpl; lia.
    + rewrite mapSet_keys, map_app.
      destruct data as [|e0 data].
      * reflexivity.
      * destruct (map fst (fst (groupDivisions getTime (e0 :: data)))) as [|k0 ks] eqn:E;
          [discriminate IH3|].
        simpl in IH3. destruct (mapGet _ _); simpl; exact IH3.
Qed.

Lemma groupKeyOf_nonempty key : exists c r, groupKeyOf key = c :: r.
Proof.
  rewrite groupKeyOf_eq. destruct (beforeFirst UNDERSCORE key) as [|c s]; simpl; eauto.
Qed.

End GroupFacts.

(** X14. handleSearch loses no poll: allPolls is the concatenation of the
    sorted poll lists of all divisions, a rearrangement of all polls of the
    response.  The tabs have pairwise distinct group keys and are no more
    than the divisions; under each group key the map holds the last division
    of the response with that key; and the tab made active is the group key
    of the first division, none when the response is empty. *)
Theorem groupDivisions_tabs :
  forall (num : Type) (getTime : jsstring -> option Z)
         (data : list (jsstring * DivisionData num)),
    let grouped := fst (groupDivisions getTime data) in
    let allPolls := snd (groupDivisions getTime data) in
    allPolls = flat_map (fun entry => sortedPolls getTime (div_polls (snd entry))) data
    /\ Permutation allPolls (flat_map (fun entry => div_polls (snd entry)) data)
    /\ List.NoDup (map fst grouped)
    /\ length grouped <= length data
    /\ (forall k, mapGet k grouped = option_map (groupOf getTime) (lastWithGroupKey k data))
    /\ firstTab grouped
       = match data with
         | [] => None
         | entry :: _ => Some (groupKeyOf (fst entry))
         end.
Proof.
  intros num getTime data grouped allPolls.
  destruct (groupDivisions_keys getTime data) as (Hnd & Hlen & Hhd).
  split; [apply groupDivisions_allPolls|]. split.
  { unfold allPolls. rewrite groupDivisions_allPolls.
    clear. induction data as [|entry data IH]; [reflexivity|].
    cbn [flat_map]. apply Permutation_app; [apply jsSort_perm|exact IH]. }
  split; [exact Hnd|]. split; [exact Hlen|].
  split; [apply groupDivisions_lookup|].
  fold grouped in Hhd. unfold firstTab.
  destruct data as [|entry data].
  - now destruct grouped.
  - destruct grouped as [|[k g] rest]; [discriminate Hhd|].
    simpl in Hhd. injection Hhd as ->.
    now destruct (groupKeyOf_nonempty (fst entry)) as (c & r & ->).
Qed.

(** ** The points of the line chart *)

Lemma Permutation_flat_map_l {A B : Type} (f : A -> list B) (l l' : list A) :
  Permutation l l' -> Permutation (flat_map f l) (flat_map f l').
Proof.
  induction 1 as [|x l l' _ IH|x y l|l l' l'' _ IH1 _ IH2]; cbn [flat_map].
  - reflexivity.
  - now apply Permutation_app_head.
  - rewrite !app_assoc. apply Permutation_app_tail, Permutation_app_comm.
  - now transitivity (flat_map f l').
Qed.

Lemma Permutation_filter_l {A : Type} (f : A -> bool) (l l' : list A) :
  Permutation l l' -> Permutation (List.filter f l) (List.filter f l').
Proof.
  induction 1 as [|x l l' _ IH|x y l|l l' l'' _ IH1 _ IH2]; cbn [List.filter].
  - reflexivity.
  - destruct (f x); [now constructor|exact IH].
  - destruct (f x), (f y); try reflexivity. apply perm_swap.
  - now transitivity (List.filter f l').
Qed.

Lemma StronglySorted_app {A : Type} (R : A -> A -> Prop) (l1 l2 : list A) :
  Sorted.StronglySorted R l1 -> Sorted.StronglySorted R l2 ->
  (forall x y, In x l1 -> In y l2 -> R x y) ->
  Sorted.StronglySorted R (l1 ++ l2).
Proof.
  intros H1 H2 H. induction H1 as [|a l1 H1 IH Ha]; [exact H2|].
  simpl. constructor.
  - apply IH. intros x y Hx. apply H. now right.
  - apply List.Forall_app. split; [exact Ha|].
    apply List.Forall_forall. intros y Hy. apply H; [now left|exact Hy].
Qed.

Lemma StronglySorted_filter {A : Type} (R : A -> A -> Prop) (f : A -> bool) (l : list A) :
  Sorted.StronglySorted R l -> Sorted.StronglySorted R (List.filter f l).
Proof.
  induction 1 as [|a l Hs IH Ha]; [constructor|].
  cbn [List.filter]. destruct (f a); [|exact IH]. constructor; [exact IH|].
  apply List.Forall_forall. intros y Hy. apply filter_In in Hy as [Hy _].
  now apply (proj1 (List.Forall_forall _ l) Ha).
Qed.

Lemma jsSort_sorted_fixed {A : Type} (gt : A -> A -> bool) (l : list A) :
  Sorted.StronglySorted (fun x y => gt x y = false) l -> jsSort gt l = l.
Proof.
  induction 1 as [|a l Hs IH Ha]; [reflexivity|].
  cbn [jsSort fold_right]. fold (jsSort gt l). rewrite IH.
  destruct l as [|b l']; [reflexivity|].
  cbn [insertSorted]. apply List.Forall_cons_iff in Ha as [Hab _]. now rewrite Hab.
Qed.

Lemma mapGet_map_values {V W : Type} (f : V -> W) k (m : list (jsstring * V)) :
  mapGet k (map (fun '(key, v) => (key, f v)) m) = option_map f (mapGet k m).
Proof.
  induction m as [|[k0 v0] m IH]; [reflexivity|].
  simpl. now destruct (strEq k0 k).
Qed.

Section ChartFacts.
Context {num : Type} {JN : JsNumber num} (getTime : jsstring -> option Z)
  (choices : list (ChoiceData num)).
Hypothesis names_canonical :
  forall c, In c choices -> normalizeChoice (cd_displayName c) = cd_displayName c.
Implicit Types (polls : list (Poll num)) (pairs : list (Poll num * Answer num))
  (k key : jsstring).

Lemma find_choice k :
  match List.find (fun c => strEq (normalizeChoice (cd_displayName c)) k) choices with
  | Some c => cd_displayName c = k /\ In k (map cd_displayName choices)
  | None => ~ In k (map cd_displayName choices)
  end.
Proof.
  destruct (List.find _ choices) as [c|] eqn:E.
  - apply List.find_some in E as [Hc Hk]. apply strEq_true in Hk.
    rewrite (names_canonical c Hc) in Hk. split; [exact Hk|].
    rewrite <- Hk. now apply in_map.
  - intros Hin. apply in_map_iff in Hin as (c & Hk & Hc).
    pose proof (List.find_none _ _ E c Hc) as Hf. cbv beta in Hf.
    rewrite (names_canonical c Hc), Hk, strEq_refl in Hf. discriminate.
Qed.

Lemma choiceDataMapOf_scan polls :
  choiceDataMapOf getTime choices polls
  = scanPairs getTime choices (answerPairs (chartPolls getTime polls)).
Proof.
  unfold choiceDataMapOf, scanPairs, answerPairs.
  generalize (chartPolls getTime polls) as l.
  generalize (@nil (jsstring * list (DataPoint num))) as m.
  intros m l. revert m. induction l as [|p l IH]; intros m; [reflexivity|].
  cbn [fold_left flat_map]. rewrite fold_left_app, IH. f_equal.
  generalize (answersOf p) as ans. clear. intros ans. revert m.
  induction ans as [|a ans IHa]; intros m; [reflexivity|]. simpl. apply IHa.
Qed.

Lemma scanPairs_snoc pairs pa :
  scanPairs getTime choices (pairs ++ [pa])
  = addPoint getTime choices (scanPairs getTime choices pairs) (fst pa) (snd pa).
Proof. unfold scanPairs. now rewrite fold_left_app. Qed.

Lemma pointsFor_snoc key pairs pa :
  pointsFor getTime key (pairs ++ [pa])
  = pointsFor getTime key pairs
    ++ (if inCluster key (snd pa) then [pointOf getTime pa] else []).
Proof.
  unfold pointsFor. rewrite List.filter_app, map_app. cbn [List.filter].
  now destruct (inCluster key (snd pa)).
Qed.

Lemma scanPairs_dropped pairs k :
  ~ In k (map cd_displayName choices) -> mapGet k (scanPairs getTime choices pairs) = None.
Proof.
  intros Hk. induction pairs as [|pa pairs IH] using rev_ind; [reflexivity|].
  rewrite scanPairs_snoc. unfold addPoint. cbv zeta.
  pose proof (find_choice (normalizeChoice (choice (snd pa)))) as Hf.
  destruct (List.find _ choices) as [c|]; [|exact IH].
  destruct Hf as [Hc Hin]. rewrite mapGet_mapSet.
  destruct (strEq (cd_displayName c) k) eqn:E; [|exact IH].
  apply strEq_true in E. congruence.
Qed.

Lemma scanPairs_lookup pairs k :
  In k (map cd_displayName choices) ->
  mapGet k (scanPairs getTime choices pairs)
  = match pointsFor getTime k pairs with
    | [] => None
    | p :: ps => Some (p :: ps)
    end.
Proof.
  intros Hk. induction pairs as [|pa pairs IH] using rev_ind; [reflexivity|].
  rewrite scanPairs_snoc, pointsFor_snoc. unfold addPoint, inCluster. cbv zeta.
  pose proof (find_choice (normalizeChoice (choice (snd pa)))) as Hf.
  destruct (List.find _ choices) as [c|].
  - destruct Hf as [Hc _]. rewrite mapGet_mapSet, Hc.
    destruct (strEq (normalizeChoice (choice (snd pa))) k) eqn:E.
    + apply strEq_true in E. rewrite E, IH.
      now destruct (pointsFor getTime k pairs).
    + now rewrite app_nil_r.
  - destruct (strEq (normalizeChoice (choice (snd pa))) k) eqn:E.
    + apply strEq_true in E. congruence.
    + now rewrite app_nil_r.
Qed.

End ChartFacts.

Section ChartOrder.
Context {num : Type} {JN : JsNumber num} (getTime : jsstring -> option Z).
Implicit Types (polls : list (Poll num)) (key : jsstring).

Lemma chartPolls_sorted polls :
  List.Forall (validEndDate getTime) polls ->
  Sorted.StronglySorted (fun a b => endsNoEarlier getTime b a) (chartPolls getTime polls).
Proof.
  intros Hv. unfold chartPolls.
  apply (StronglySorted_weaken (validEndDate getTime)
           (fun a b => byEndDateAsc getTime a b = false)).
  - intros x y Hx Hy. unfold validEndDate, byEndDateAsc, endsNoEarlier in *.
    destruct (getTime (end_date x)), (getTime (end_date y)); try tauto.
    rewrite Z.ltb_ge. lia.
  - now apply jsSort_Forall.
  - apply (jsSort_sorted _ (validEndDate getTime)); [| |exact Hv].
    + intros x y Hx Hy. unfold validEndDate, byEndDateAsc in *.
      destruct (getTime (end_date x)), (getTime (end_date y)); try tauto.
      rewrite Z.ltb_lt, Z.ltb_ge. lia.
    + intros x y z Hx Hy Hz. unfold validEndDate, byEndDateAsc in *.
      destruct (getTime (end_date x)), (getTime (end_date y)), (getTime (end_date z));
        try tauto.
      rewrite !Z.ltb_ge. lia.
Qed.

Lemma answerPairs_sorted (R : Poll num -> Poll num -> Prop) polls :
  (forall p, In p polls -> R p p) ->
  Sorted.StronglySorted R polls ->
  Sorted.StronglySorted (fun x y => R (fst x) (fst y)) (answerPairs polls).
Proof.
  intros Hrefl Hs. induction Hs as [|p l Hs IH Hp]; [constructor|].
  unfold answerPairs. cbn [flat_map]. fold (answerPairs l). apply StronglySorted_app.
  - assert (Hpp : R p p) by (apply Hrefl; now left).
    induction (answersOf p) as [|a ans IHa]; [constructor|].
    cbn [map]. constructor; [exact IHa|].
    apply List.Forall_forall. intros y Hy. apply in_map_iff in Hy as (b & <- & _). exact Hpp.
  - apply IH. intros q Hq. apply Hrefl. now right.
  - intros x y Hx Hy. apply in_map_iff in Hx as (a & <- & _).
    unfold answerPairs in Hy. apply in_flat_map in Hy as (q & Hq & Hy).
    apply in_map_iff in Hy as (b & <- & _). cbn [fst].
    now apply (proj1 (List.Forall_forall _ l) Hp).
Qed.

Lemma answerPairs_answers polls : map snd (answerPairs polls) = allAnswers polls.
Proof.
  unfold answerPairs, allAnswers. induction polls as [|p l IH]; [reflexivity|].
  cbn [flat_map]. rewrite map_app, IH, map_map. cbn [snd]. now rewrite map_id.
Qed.

Lemma pointsFor_values key polls :
  map dp_value (pointsFor getTime key (answerPairs polls)) = map pct (clusterOf key polls).
Proof.
  unfold pointsFor, clusterOf. rewrite <- answerPairs_answers, map_map.
  cbn [dp_value pointOf].
  induction (answerPairs polls) as [|pa l IH]; [reflexivity|].
  cbn [List.filter map]. destruct (inCluster key (snd pa)); cbn [map]; now rewrite IH.
Qed.

Lemma pointsFor_sorted key polls :
  List.Forall (validEndDate getTime) polls ->
  Sorted.StronglySorted datedNoLater
    (pointsFor getTime key (answerPairs (chartPolls getTime polls))).
Proof.
  intros Hv. unfold pointsFor. apply StronglySorted_map, StronglySorted_filter.
  pose proof (jsSort_Forall (byEndDateAsc getTime) (validEndDate getTime) polls Hv) as Hv'.
  fold (chartPolls getTime polls) in Hv'.
  assert (Hs : Sorted.StronglySorted
                 (fun x y : Poll num * Answer num => endsNoEarlier getTime (fst y) (fst x))
                 (answerPairs (chartPolls getTime polls))).
  { apply (answerPairs_sorted (fun a b => endsNoEarlier getTime b a)).
    - intros p Hp. apply (proj1 (List.Forall_forall _ _) Hv') in Hp.
      unfold validEndDate, endsNoEarlier in *.
      destruct (getTime (end_date p)); [lia|congruence].
    - now apply chartPolls_sorted. }
  revert Hs. apply Sorted.StronglySorted_ind; [constructor|].
  intros a l _ IH Ha. constructor; [exact IH|].
  eapply List.Forall_impl; [|exact Ha]. intros b. cbv beta.
  unfold endsNoEarlier, datedNoLater, pointOf. cbn [dp_date].
  now destruct (getTime (end_date (fst b))), (getTime (end_date (fst a))).
Qed.

Lemma datedNoLater_fixed (pts : list (DataPoint num)) :
  Sorted.StronglySorted datedNoLater pts -> jsSort byPointDateAsc pts = pts.
Proof.
  intros Hs. apply jsSort_sorted_fixed. revert Hs.
  apply Sorted.StronglySorted_ind; [constructor|].
  intros a l _ IH Ha. constructor; [exact IH|].
  eapply List.Forall_impl; [|exact Ha]. intros b. cbv beta.
  unfold datedNoLater, byPointDateAsc.
  destruct (dp_date a), (dp_date b); try tauto. rewrite Z.ltb_ge. lia.
Qed.

Lemma clusterOf_chartPolls_length key polls :
  length (clusterOf key (chartPolls getTime polls)) = length (clusterOf key polls).
Proof.
  apply Permutation_length. unfold clusterOf, allAnswers.
  apply Permutation_filter_l, Permutation_flat_map_l, jsSort_perm.
Qed.

End ChartOrder.

(** X15. In the chart of a group, every choice of the summary has a series
    of raw points: one point per answer counted in its average, with the
    percentages of those answers in ascending order of end date; an answer
    whose choice is not in the summary (beyond the ten kept) is charted
    nowhere.  Every end date is assumed to be a valid date. *)
Theorem rawData_series :
  forall (num : Type) (JN : JsNumber num) (getTime : jsstring -> option Z)
         (polls : list (Poll num)) (colorMap : gmap jsstring jsstring),
    (forall p, In p polls -> getTime (end_date p) <> None) ->
    let choices := calculateChoicesWithColors polls colorMap in
    let raw := rawData getTime choices polls in
    (forall cd, In cd choices ->
       exists p ps,
         mapGet (cd_displayName cd) raw = Some (p :: ps)
         /\ map dp_value (p :: ps)
            = map pct (clusterOf (cd_displayName cd) (chartPolls getTime polls))
         /\ length (p :: ps) = length (clusterOf (cd_displayName cd) polls)
         /\ Sorted.StronglySorted datedNoLater (p :: ps))
    /\ (forall key, ~ In key (map cd_displayName choices) -> mapGet key raw = None).
Proof.
  intros num JN getTime polls colorMap Hv choices raw.
  assert (Hcanon : forall c, In c choices ->
            normalizeChoice (cd_displayName c) = cd_displayName c).
  { intros c Hc. destruct (summary_name_origin polls colorMap c Hc) as (a & _ & <-).
    apply canonical_fixed, normalizeChoice_canonical. }
  assert (Hraw : forall k, mapGet k raw
            = option_map (jsSort byPointDateAsc)
                (mapGet k (scanPairs getTime choices (answerPairs (chartPolls getTime polls))))).
  { intros k. unfold raw, rawData. rewrite mapGet_map_values.
    now rewrite (choiceDataMapOf_scan getTime choices). }
  apply List.Forall_forall in Hv. split.
  - intros cd Hcd. rewrite Hraw.
    rewrite (scanPairs_lookup getTime choices Hcanon) by now apply in_map.
    pose proof (pointsFor_values getTime (cd_displayName cd) (chartPolls getTime polls)) as Hval.
    pose proof (pointsFor_sorted getTime (cd_displayName cd) polls Hv) as Hs.
    pose proof (clusterOf_chartPolls_length getTime (cd_displayName cd) polls) as Hlen.
    destruct (pointsFor getTime (cd_displayName cd) (answerPairs (chartPolls getTime polls)))
      as [|p ps] eqn:E.
    + exfalso. destruct (summary_name_origin polls colorMap cd Hcd) as (a & Ha & Hk).
      assert (Hin : In a (clusterOf (cd_displayName cd) polls)).
      { apply filter_In. split; [exact Ha|now apply strEq_true]. }
      simpl in Hval. symmetry in Hval. apply map_eq_nil in Hval.
      rewrite Hval in Hlen. simpl in Hlen.
      destruct (clusterOf (cd_displayName cd) polls); [contradiction|discriminate].
    + exists p, ps. cbn [option_map]. rewrite (datedNoLater_fixed _ Hs).
      split; [reflexivity|]. split; [exact Hval|]. split; [|exact Hs].
      rewrite <- Hlen, <- (length_map pct), <- Hval. now rewrite length_map.
  - intros key Hk. rewrite Hraw.
    now rewrite (scanPairs_dropped getTime choices Hcanon).
Qed.

Lemma rawData_series_witness :
  (forall p, In p approvalPolls -> isoDateTime (end_date p) <> None)
  /\ In {| cd_displayName := lit "Approve"; cd_average := 44.5%float; cd_color := VString GREEN |}
        (calculateChoicesWithColors approvalPolls approvalColors)
  /\ exists p ps,
       mapGet (lit "Approve")
         (rawData isoDateTime (calculateChoicesWithColors approvalPolls approvalColors)
                  approvalPolls) = Some (p :: ps)
       /\ map dp_value (p :: ps)
          = map pct (clusterOf (lit "Approve") (chartPolls isoDateTime approvalPolls))
       /\ length (p :: ps) = length (clusterOf (lit "Approve") approvalPolls)
       /\ Sorted.StronglySorted datedNoLater (p :: ps).
Proof.
  assert (H1 : forall p, In p approvalPolls -> isoDateTime (end_date p) <> None).
  { intros p [<-|[<-|[]]]; discriminate. }
  assert (H2 : In {| cd_displayName := lit "Approve"; cd_average := 44.5%float;
                     cd_color := VString GREEN |}
                  (calculateChoicesWithColors approvalPolls approvalColors))
    by (right; left; reflexivity).
  split; [exact H1|]. split; [exact H2|].
  exact (proj1 (rawData_series _ _ isoDateTime approvalPolls approvalColors H1) _ H2).
Defined.

(** ** The colour of the winner *)

Lemma shownName_key {num : Type} (top : Answer num) :
  normalizeChoice (shownName top) = normalizeChoice (choice top).
Proof.
  unfold shownName. destruct (normalizeChoice (choice top)) as [|c r] eqn:E; [exact E|].
  rewrite <- E. apply canonical_fixed, normalizeChoice_canonical.
Qed.

(** X16. When the colour map gives nothing for the name shown as winner of
    a poll of the table (no own colour, and no property of Object.prototype
    under that name), the Result cell is coloured by the fallback rules
    exactly as they colour the winning answer's own label: showing the
    canonical name instead of the label changes no rule colour. *)
Theorem resultCell_rule_colour :
  forall (num : Type) (JN : JsNumber num) (JZ : JsNumberZero num)
         (polls : list (Poll num)) (colorMap : gmap jsstring jsstring) (poll : Poll num)
         (name : jsstring) (lead : num) (color : JsValue),
    In poll polls ->
    resultCell (choiceStatsOf polls) colorMap poll = Leader name lead color ->
    noValueFor colorMap name ->
    exists top rest,
      rankedAnswers poll = top :: rest
      /\ name = shownName top
      /\ color = VString (winnerRuleColor poll (choice top)).
Proof.
  intros num JN JZ polls colorMap poll name lead color Hp H Hno.
  unfold resultCell in H. rewrite getWinnerInfo_ranked in H.
  pose proof (rankedAnswers_perm poll) as Hperm.
  destruct (rankedAnswers poll) as [|top rest]; [discriminate|].
  assert (Ht : In top (answersOf poll)) by (apply (Permutation_in _ Hperm); now left).
  cbn [margin winner] in H. rewrite (shownName_stats polls poll top Hp Ht) in H.
  destruct (nisZero _); [discriminate|]. injection H as <- _ <-.
  exists top, rest. split; [reflexivity|]. split; [reflexivity|].
  rewrite (getWinnerColor_noValue colorMap poll _ Hno). f_equal.
  apply winnerRuleColor_by_key, shownName_key.
Qed.

Lemma resultCell_rule_colour_witness :
  In shoutedApprovalPoll [shoutedApprovalPoll]
  /\ resultCell (choiceStatsOf [shoutedApprovalPoll]) ∅ shoutedApprovalPoll
     = Leader (lit "Disapprove") 11%float (VString ORANGE)
  /\ noValueFor ∅ (lit "Disapprove")
  /\ exists top rest,
       rankedAnswers shoutedApprovalPoll = top :: rest
       /\ lit "Disapprove" = shownName top
       /\ VString ORANGE = VString (winnerRuleColor shoutedApprovalPoll (choice top)).
Proof.
  assert (H1 : In shoutedApprovalPoll [shoutedApprovalPoll]) by (left; reflexivity).
  assert (H2 : resultCell (choiceStatsOf [shoutedApprovalPoll]) ∅ shoutedApprovalPoll
               = Leader (lit "Disapprove") 11%float (VString ORANGE)) by reflexivity.
  assert (H3 : noValueFor ∅ (lit "Disapprove"))
    by (right; split; [apply lookup_empty|reflexivity]).
  split; [exact H1|]. split; [exact H2|]. split; [exact H3|].
  exact (resultCell_rule_colour _ _ _ [shoutedApprovalPoll] ∅ shoutedApprovalPoll
           _ _ _ H1 H2 H3).
Defined.

(** ** Blank queries *)

Lemma trimStart_nil s : trimStart s = [] <-> allWhiteSpace s.
Proof.
  split; [|apply trimStart_all_whiteSpace].
  induction s as [|c s IH]; [constructor|].
  simpl. destruct (isWhiteSpace c) eqn:E; [|discriminate].
  intros H. constructor; [exact E|now apply IH].
Qed.

Lemma trimEnd_nil s : trimEnd s = [] <-> allWhiteSpace s.
Proof.
  unfold trimEnd. split.
  - intros H. apply (f_equal (@rev ascii)) in H. rewrite rev_involutive in H.
    apply trimStart_nil in H. apply allWhiteSpace_rev in H. now rewrite rev_involutive in H.
  - intros H. apply allWhiteSpace_rev in H. apply trimStart_nil in H. now rewrite H.
Qed.

(** X17. handleSearch abandons a query exactly when it consists of white
    space only (the empty query included). *)
Theorem queryIsBlank_iff :
  forall query : jsstring, queryIsBlank query = true <-> allWhiteSpace query.
Proof.
  intros q. unfold queryIsBlank, trim. split.
  - intros H. destruct (trimEnd (trimStart q)) eqn:E; [|discriminate].
    apply trimEnd_nil, trimStart_nil in E.
    rewrite trimStart_fixed in E. now apply trimStart_nil.
  - intros H. apply trimStart_nil in H. now rewrite H.
Qed.

Lemma queryIsBlank_iff_witness :
  allWhiteSpace (lit "   ") /\ queryIsBlank (lit "   ") = true.
Proof.
  assert (H : allWhiteSpace (lit "   ")) by (repeat constructor).
  split; [exact H|]. exact (proj2 (queryIsBlank_iff (lit "   ")) H).
Defined.
